(** * post_instagram.py: the Instagram Graph API posting client

    A shallow embedding of [src/post_instagram.py] (class [InstagramAPI])
    and the properties of [post_image] and of the constructor.

    The program is sequential glue over an HTTP library.  Its effects are
    modelled by a small monad that threads the log of the calls made to
    [requests.post] and the lines printed, and that distinguishes the three
    ways a Python statement can end: normally, by [return], by an exception.

    What lies outside the file is taken as data of a run:
    - the remote end is a function from the calls received so far and the
      current call to what [requests.post] does (a response, or a request
      exception);
    - a response carries its status, the text [raise_for_status] would put
      in its [HTTPError], and the result of decoding its body as JSON;
    - [requests] is taken as of version 2.27 and later, where a body that
      is not JSON raises [requests.exceptions.JSONDecodeError], a subclass
      of both [RequestException] and [ValueError]; the other exceptions of
      the decoder, which [requests] does not convert, are kept apart: a
      plain [ValueError] (an integer literal over the digit limit) and
      [RecursionError] (nesting too deep);
    - the clock gives the fields of [datetime.now()].
    Strings are byte strings holding the UTF-8 text of the Python strings;
    concatenation, equality and the substring test agree on both. *)

From Stdlib Require Import String Ascii List Bool Arith ZArith Lia.
From Stdlib Require Import DecimalString DecimalNat.
Import ListNotations.
Open Scope string_scope.

Set Warnings "-register-all".

(** ** Python values that reach the program *)

(** A decoded JSON document, as [response.json()] hands it to the program.
    A number is kept as its literal: the program never computes with one,
    and an [int] and a [float] behave alike under [in], [[...]] and [.get].
    A [JObj] is the Python [dict]; lookup finds the binding of a key. *)
Inductive json : Type :=
| JNull
| JBool (b : bool)
| JNum (lit : string)
| JStr (s : string)
| JArr (items : list json)
| JObj (members : list (string * json)).

Fixpoint dict_get (k : string) (d : list (string * json)) : option json :=
  match d with
  | [] => None
  | (k', v) :: d' => if k' =? k then Some v else dict_get k d'
  end.

(** [requests.Response], reduced to what the program and
    [raise_for_status] read: the status, the text [raise_for_status] gives
    its [HTTPError], and what [.json()] does with the body: it returns the
    decoded value; or the body is not JSON and the decoder's
    [json.JSONDecodeError] is converted to that of [requests]; or the
    decoder raises a plain [ValueError], which is not converted; or it
    raises [RecursionError]. *)
Inductive payload : Type :=
| Decodes (j : json)
| Garbled (why : string)
| Refused (why : string)
| TooDeep.

Record response : Type := mkResponse {
  status_code : Z;
  http_error_text : string;
  content : payload
}.

(** The exceptions of the run.  [RequestException] stands for the classes
    of [requests.exceptions] that carry an optional response
    ([ConnectionError], [Timeout], [HTTPError], ...).  [JSONDecodeError] is
    [requests.exceptions.JSONDecodeError], which is both a
    [RequestException] and a [ValueError] and carries no response. *)
Inductive exn : Type :=
| RequestException (text : string) (resp : option response)
| JSONDecodeError (text : string)
| ValueError (text : string)
| TypeError
| AttributeError
| IndexError
| KeyError
| RecursionError.

Definition is_RequestException (e : exn) : bool :=
  match e with
  | RequestException _ _ | JSONDecodeError _ => true
  | _ => false
  end.

Definition is_ValueError (e : exn) : bool :=
  match e with
  | JSONDecodeError _ | ValueError _ => true
  | _ => false
  end.

(** [e.response] of a caught request exception. *)
Definition exn_response (e : exn) : option response :=
  match e with
  | RequestException _ r => r
  | _ => None
  end.

(** [str(e)]. *)
Definition exn_str (e : exn) : string :=
  match e with
  | RequestException t _ | JSONDecodeError t | ValueError t => t
  | TypeError => "TypeError"
  | AttributeError => "AttributeError"
  | IndexError => "list index out of range"
  | KeyError => "KeyError"
  | RecursionError => "maximum recursion depth exceeded"
  end.

(** ** The world around the program *)

(** One call of [requests.post(url, params=...)]. *)
Record request : Type := mkRequest {
  url : string;
  params : list (string * json)
}.

(** What [requests.post] does with a call: it returns a response, or it
    raises a request exception (no connection, time-out, ...). *)
Inductive outcome : Type :=
| Respond (r : response)
| Fail (text : string) (resp : option response).

(** [datetime.now()], reduced to the fields [_get_formatted_date] reads;
    [weekday] is [now.weekday()], Monday being 0. *)
Record datetime : Type := mkDatetime {
  year : nat;
  month : nat;
  day : nat;
  weekday : nat
}.

(** The surroundings of a run: the clock, the remote end (whose answer may
    depend on every call it has received so far), and Python's [str()] on a
    value that is not a string (the text of a number, list or dict). *)
Record runtime : Type := mkRuntime {
  clock : datetime;
  server : list request -> request -> outcome;
  str_of : json -> string
}.

(** What a run leaves behind: the calls made, oldest first, and the lines
    printed. *)
Record state : Type := mkState {
  calls : list request;
  stdout : list string
}.

Definition fresh : state := {| calls := []; stdout := [] |}.

(** The dict [post_image] returns. *)
Inductive post_result : Type :=
| Success (post_id : json) (status : string)
| Failure (error : string).

(** ** Effects: state, [return] and exceptions *)

Inductive ctl (A : Type) : Type :=
| Next (a : A)
| Return (v : post_result)
| Raise (e : exn).
Arguments Next {A} a.
Arguments Return {A} v.
Arguments Raise {A} e.

Definition M (A : Type) : Type := runtime -> state -> ctl A * state.

Definition ret {A} (a : A) : M A := fun _ st => (Next a, st).

Definition bind {A B} (m : M A) (k : A -> M B) : M B :=
  fun E st =>
    match m E st with
    | (Next a, st') => k a E st'
    | (Return v, st') => (Return v, st')
    | (Raise e, st') => (Raise e, st')
    end.

Definition raise {A} (e : exn) : M A := fun _ st => (Raise e, st).

(** The statement [return v]. *)
Definition return_ {A} (v : post_result) : M A := fun _ st => (Return v, st).

(** [if c: body] with nothing after it in the branch. *)
Definition when_ (c : bool) (body : M unit) : M unit :=
  if c then body else ret tt.

(** [try: body except C as e: handler e], where [catches] says which
    exceptions are instances of [C]. *)
Definition try_except {A} (body : M A) (catches : exn -> bool)
    (handler : exn -> M A) : M A :=
  fun E st =>
    match body E st with
    | (Raise e, st') => if catches e then handler e E st' else (Raise e, st')
    | other => other
    end.

(** The boundary of a function whose body ends in [return]. *)
Definition def (body : M post_result) : M post_result :=
  fun E st =>
    match body E st with
    | (Return v, st') => (Next v, st')
    | other => other
    end.

Declare Scope py_scope.
Delimit Scope py_scope with py.
Notation "x <- c1 ;; c2" := (bind c1 (fun x => c2))
  (at level 61, c1 at next level, right associativity) : py_scope.
Notation "c1 ;; c2" := (bind c1 (fun _ => c2))
  (at level 61, right associativity) : py_scope.
Open Scope py_scope.

Definition print (line : string) : M unit :=
  fun _ st => (Next tt, {| calls := calls st; stdout := stdout st ++ [line] |}).

Definition datetime_now : M datetime := fun E st => (Next (clock E), st).

(** [requests.post(url, params=params)]. *)
Definition requests_post (u : string) (p : list (string * json)) : M response :=
  fun E st =>
    let rq := {| url := u; params := p |} in
    let st' := {| calls := calls st ++ [rq]; stdout := stdout st |} in
    match server E (calls st) rq with
    | Respond r => (Next r, st')
    | Fail text resp => (Raise (RequestException text resp), st')
    end.

(** [response.raise_for_status()]: an [HTTPError] for 4xx and 5xx. *)
Definition raise_for_status (r : response) : M unit :=
  if ((400 <=? status_code r) && (status_code r <? 600))%Z
  then raise (RequestException (http_error_text r) (Some r))
  else ret tt.

(** [response.json()]. *)
Definition response_json (r : response) : M json :=
  match content r with
  | Decodes j => ret j
  | Garbled why => raise (JSONDecodeError why)
  | Refused why => raise (ValueError why)
  | TooDeep => raise RecursionError
  end.

(** ** Python operators on decoded values *)

Fixpoint is_substring (p s : string) : bool :=
  String.prefix p s ||
  match s with
  | EmptyString => false
  | String _ s' => is_substring p s'
  end.

Definition is_str (k : string) (v : json) : bool :=
  match v with
  | JStr s => s =? k
  | _ => false
  end.

(** [k in v] for a string [k]: key of a dict, element of a list, substring
    of a string; [TypeError] on anything else. *)
Definition py_in (k : string) (v : json) : M bool :=
  match v with
  | JObj d => ret (match dict_get k d with Some _ => true | None => false end)
  | JArr l => ret (existsb (is_str k) l)
  | JStr s => ret (is_substring k s)
  | _ => raise TypeError
  end.

(** [v[k]] for a string [k]. *)
Definition py_getitem (v : json) (k : string) : M json :=
  match v with
  | JObj d => match dict_get k d with
              | Some x => ret x
              | None => raise KeyError
              end
  | _ => raise TypeError
  end.

(** [v.get(k, default)]: only a dict has the method. *)
Definition py_get (v : json) (k : string) (default : json) : M json :=
  match v with
  | JObj d => ret (match dict_get k d with Some x => x | None => default end)
  | _ => raise AttributeError
  end.

(** [xs[0]] on a list. *)
Definition py_first {A} (xs : list A) : M A :=
  match xs with
  | x :: _ => ret x
  | [] => raise IndexError
  end.

Fixpoint strs (l : list json) : option (list string) :=
  match l with
  | [] => Some []
  | JStr s :: l' => option_map (cons s) (strs l')
  | _ :: _ => None
  end.

(** [sep.join(l)]: every item must be a [str]. *)
Definition py_join (sep : string) (l : list json) : M string :=
  match strs l with
  | Some ss => ret (String.concat sep ss)
  | None => raise TypeError
  end.

(** [f"{v}"]. *)
Definition format_value (v : json) : M string :=
  fun E st => (Next (match v with JStr s => s | _ => str_of E v end), st).

(** [f"{n}"] and [f"{n:02d}"] for a non-negative [int]. *)
Definition dec (n : nat) : string := NilZero.string_of_uint (Nat.to_uint n).
Definition dec02 (n : nat) : string := if (n <? 10)%nat then "0" ++ dec n else dec n.

(** [not s] for the result of [os.getenv]. *)
Definition falsy (s : option string) : bool :=
  match s with
  | None | Some EmptyString => true
  | Some _ => false
  end.

(** ** class InstagramAPI *)

Record InstagramAPI : Type := mkInstagramAPI {
  access_token : string;
  account_id : string;
  api_version : string;
  base_url : string
}.

(** [__init__], over the process environment as [load_dotenv()] left it. *)
Definition credentials_missing : string :=
  "Instagram 자격 증명이 설정되지 않았습니다. .env 파일을 확인해주세요.".

Definition __init__ (getenv : string -> option string) : exn + InstagramAPI :=
  let access_token := getenv "INSTAGRAM_ACCESS_TOKEN" in
  let account_id := getenv "INSTAGRAM_ACCOUNT_ID" in
  if falsy access_token || falsy account_id
  then inl (ValueError credentials_missing)
  else
    match access_token, account_id with
    | Some t, Some a =>
        let api_version := "v18.0" in
        inr {| access_token := t; account_id := a;
               api_version := api_version;
               base_url := "https://graph.facebook.com/" ++ api_version |}
    | _, _ => inl (ValueError credentials_missing) (* not reached: None is falsy *)
    end.

Definition _create_single_media (self : InstagramAPI) (image_url caption : string)
    : M json :=
  let container_url := base_url self ++ "/" ++ account_id self ++ "/media" in
  let container_params :=
    [("access_token", JStr (access_token self));
     ("image_url", JStr image_url);
     ("caption", JStr caption)] in
  response <- requests_post container_url container_params ;;
  raise_for_status response ;;
  response_json response.

Definition _create_carousel_item (self : InstagramAPI) (image_url : string)
    : M json :=
  let container_url := base_url self ++ "/" ++ account_id self ++ "/media" in
  let container_params :=
    [("access_token", JStr (access_token self));
     ("image_url", JStr image_url);
     ("is_carousel_item", JBool true)] in
  response <- requests_post container_url container_params ;;
  raise_for_status response ;;
  response_json response.

Definition _create_carousel_container (self : InstagramAPI)
    (children_ids : list json) (caption : string) : M json :=
  let container_url := base_url self ++ "/" ++ account_id self ++ "/media" in
  children <- py_join "," children_ids ;;
  let container_params :=
    [("access_token", JStr (access_token self));
     ("media_type", JStr "CAROUSEL");
     ("children", JStr children);
     ("caption", JStr caption)] in
  response <- requests_post container_url container_params ;;
  raise_for_status response ;;
  response_json response.

Definition _publish_media (self : InstagramAPI) (creation_id : json) : M json :=
  let publish_url := base_url self ++ "/" ++ account_id self ++ "/media_publish" in
  let publish_params :=
    [("access_token", JStr (access_token self));
     ("creation_id", creation_id)] in
  response <- requests_post publish_url publish_params ;;
  raise_for_status response ;;
  response_json response.

Definition weekdays : list string :=
  ["월요일"; "화요일"; "수요일"; "목요일"; "금요일"; "토요일"; "일요일"].

Definition _get_formatted_date (self : InstagramAPI) : M string :=
  now <- datetime_now ;;
  weekday <- ret (nth (weekday now) weekdays "") ;;
  ret (dec (year now) ++ "년 " ++ dec02 (month now) ++ "월 "
       ++ dec02 (day now) ++ "일 " ++ weekday ++ " MQ 글로벌 증권가 뉴스").

(** Which argument [post_image] was given: a [str] or a [list] of them. *)
Inductive image_arg : Type :=
| Str (s : string)
| Lst (l : list string).

(** The [for i, image_url in enumerate(image_paths, 1)] loop, from
    position [i] on, with [children_ids] as collected so far. *)
Fixpoint carousel_items (self : InstagramAPI) (total i : nat)
    (image_paths : list string) (children_ids : list json) : M (list json) :=
  match image_paths with
  | [] => ret children_ids
  | image_url :: rest =>
      print ("이미지 " ++ dec i ++ "/" ++ dec total ++ " 처리 중...") ;;
      response <- _create_carousel_item self image_url ;;
      has_id <- py_in "id" response ;;
      when_ (negb has_id)
        (return_ (Failure ("캐러셀 아이템 " ++ dec i ++ " 생성 실패"))) ;;
      id <- py_getitem response "id" ;;
      carousel_items self total (S i) rest (children_ids ++ [id])%list
  end.

(** The body of the [try] in [post_image]. *)
Definition post_image_try (self : InstagramAPI) (image_paths : image_arg)
    (caption : option string) : M post_result :=
  caption <- match caption with
             | None => _get_formatted_date self
             | Some c => ret c
             end ;;
  let image_paths := match image_paths with Str s => [s] | Lst l => l end in
  container <-
    (if (1 <? length image_paths)%nat then
       print ("캐러셀 이미지 업로드 중... (총 " ++ dec (length image_paths) ++ "장)") ;;
       children_ids <- carousel_items self (length image_paths) 1 image_paths [] ;;
       print "캐러셀 컨테이너 생성 중..." ;;
       _create_carousel_container self children_ids caption
     else
       print "단일 이미지 업로드 중..." ;;
       image_url <- py_first image_paths ;;
       _create_single_media self image_url caption) ;;
  has_id <- py_in "id" container ;;
  when_ (negb has_id) (return_ (Failure "미디어 컨테이너 ID를 받지 못했습니다")) ;;
  print "Instagram에 게시물 발행 중..." ;;
  creation_id <- py_getitem container "id" ;;
  publish_data <- _publish_media self creation_id ;;
  has_id <- py_in "id" publish_data ;;
  when_ (negb has_id) (return_ (Failure "게시물 ID를 받지 못했습니다")) ;;
  print "게시물 발행 완료!" ;;
  post_id <- py_getitem publish_data "id" ;;
  return_ (Success post_id
    "이미지가 성공적으로 Instagram에 업로드되었습니다. 원본 파일은 이제 삭제해도 됩니다.").

(** The [except requests.exceptions.RequestException as e] clause.
    [hasattr(e.response, 'json')] holds of a response and fails of [None]. *)
Definition post_image_except (e : exn) : M post_result :=
  let error_message := exn_str e in
  error_message <-
    match exn_response e with
    | Some r =>
        try_except
          (error_data <- response_json r ;;
           has_error <- py_in "error" error_data ;;
           if has_error then
             err <- py_getitem error_data "error" ;;
             message <- py_get err "message" (JStr (exn_str e)) ;;
             format_value message
           else ret error_message)
          is_ValueError
          (fun _ => ret error_message)
    | None => ret error_message
    end ;;
  return_ (Failure ("Instagram 포스팅 중 오류 발생: " ++ error_message)).

Definition post_image (self : InstagramAPI) (image_paths : image_arg)
    (caption : option string) : M post_result :=
  def (try_except (post_image_try self image_paths caption)
         is_RequestException post_image_except).

(** The [if __name__ == "__main__"] block (lines 184-210), over the process
    environment: the client is built, then the single-image test and the
    carousel test are run and reported, one after the other. *)
Definition single_image : string :=
  "https://petapixel.com/assets/uploads/2022/06/what-is-a-jpeg-featured-800x420.jpg".

Definition multiple_images : list string :=
  ["https://petapixel.com/assets/uploads/2022/06/what-is-a-jpeg-featured-800x420.jpg";
   "https://upload.wikimedia.org/wikipedia/commons/thumb/4/47/PNG_transparency_demonstration_1.png/280px-PNG_transparency_demonstration_1.png"].

Definition newline : string := String (ascii_of_nat 10) EmptyString.

Definition main (getenv : string -> option string) : M unit :=
  match __init__ getenv with
  | inl e => raise e
  | inr api =>
      print (newline ++ "=== 단일 이미지 테스트 ===") ;;
      result <- post_image api (Str single_image) None ;;
      match result with
      | Success post_id status =>
          shown <- format_value post_id ;;
          print ("포스팅 성공! 게시물 ID: " ++ shown) ;;
          print status
      | Failure error =>
          print ("포스팅 실패: " ++ error)
      end ;;
      print (newline ++ "=== 다중 이미지 테스트 ===") ;;
      result <- post_image api (Lst multiple_images) None ;;
      match result with
      | Success post_id status =>
          shown <- format_value post_id ;;
          print ("포스팅 성공! 게시물 ID: " ++ shown) ;;
          print status
      | Failure error =>
          print ("포스팅 실패: " ++ error)
      end
  end.

(** ** The calls the client makes

    The request each of the four private methods hands to [requests.post],
    and what the three statements they share ([requests.post],
    [raise_for_status], [return response.json()]) make of the remote end's
    reaction. *)

Definition media_url (self : InstagramAPI) : string :=
  base_url self ++ "/" ++ account_id self ++ "/media".

Definition single_media_request (self : InstagramAPI) (image_url caption : string)
    : request :=
  {| url := media_url self;
     params := [("access_token", JStr (access_token self));
                ("image_url", JStr image_url);
                ("caption", JStr caption)] |}.

Definition carousel_item_request (self : InstagramAPI) (image_url : string)
    : request :=
  {| url := media_url self;
     params := [("access_token", JStr (access_token self));
                ("image_url", JStr image_url);
                ("is_carousel_item", JBool true)] |}.

Definition carousel_container_request (self : InstagramAPI)
    (children caption : string) : request :=
  {| url := media_url self;
     params := [("access_token", JStr (access_token self));
                ("media_type", JStr "CAROUSEL");
                ("children", JStr children);
                ("caption", JStr caption)] |}.

Definition publish_request (self : InstagramAPI) (creation_id : json) : request :=
  {| url := base_url self ++ "/" ++ account_id self ++ "/media_publish";
     params := [("access_token", JStr (access_token self));
                ("creation_id", creation_id)] |}.

Definition is_http_error (r : response) : bool :=
  ((400 <=? status_code r) && (status_code r <? 600))%Z.

(** The call is answered by a response that [raise_for_status] lets pass
    and whose body decodes to [j]. *)
Definition replies (E : runtime) (log : list request) (rq : request) (j : json)
    : Prop :=
  exists r, server E log rq = Respond r /\ is_http_error r = false
            /\ content r = Decodes j.

(** How a private method ends, given the remote end's reaction. *)
Definition answer (o : outcome) : ctl json :=
  match o with
  | Fail text resp => Raise (RequestException text resp)
  | Respond r =>
      if is_http_error r
      then Raise (RequestException (http_error_text r) (Some r))
      else match content r with
           | Decodes j => Next j
           | Garbled why => Raise (JSONDecodeError why)
           | Refused why => Raise (ValueError why)
           | TooDeep => Raise RecursionError
           end
  end.

Definition api_call (rq : request) : M json :=
  response <- requests_post (url rq) (params rq) ;;
  raise_for_status response ;;
  response_json response.

Definition push (rq : request) (st : state) : state :=
  {| calls := calls st ++ [rq]; stdout := stdout st |}.

Definition say (line : string) (st : state) : state :=
  {| calls := calls st; stdout := stdout st ++ [line] |}.

(** The text [_get_formatted_date] returns for a given clock. *)
Definition formatted_date (now : datetime) : string :=
  dec (year now) ++ "년 " ++ dec02 (month now) ++ "월 "
  ++ dec02 (day now) ++ "일 " ++ nth (weekday now) weekdays ""
  ++ " MQ 글로벌 증권가 뉴스".

(** The caption [post_image] sends: the argument, or the default for [None]. *)
Definition caption_sent (E : runtime) (caption : option string) : string :=
  match caption with
  | Some c => c
  | None => formatted_date (clock E)
  end.

Definition paths_of (image_paths : image_arg) : list string :=
  match image_paths with
  | Str s => [s]
  | Lst l => l
  end.

Definition item_failed (i : nat) : string :=
  "캐러셀 아이템 " ++ dec i ++ " 생성 실패".
Definition container_failed : string := "미디어 컨테이너 ID를 받지 못했습니다".
Definition publish_failed : string := "게시물 ID를 받지 못했습니다".
Definition uploaded : string :=
  "이미지가 성공적으로 Instagram에 업로드되었습니다. 원본 파일은 이제 삭제해도 됩니다.".
Definition error_prefix : string := "Instagram 포스팅 중 오류 발생: ".

(** ** The check made on every decoded answer

    [if "id" not in x: return {"success": False, "error": fail}] followed by
    [x["id"]], as one pure step. *)
Definition check_id (fail : string) (j : json) : ctl json :=
  match j with
  | JObj d => match dict_get "id" d with
              | Some v => Next v
              | None => Return (Failure fail)
              end
  | JArr l => if existsb (is_str "id") l then Raise TypeError
              else Return (Failure fail)
  | JStr s => if is_substring "id" s then Raise TypeError
              else Return (Failure fail)
  | _ => Raise TypeError
  end.

Definition verdict (fail : string) (a : ctl json) : ctl json :=
  match a with
  | Next j => check_id fail j
  | Return v => Return v
  | Raise e => Raise e
  end.

(** The id an answer carries, when it is a JSON object with an [id]. *)
Definition id_of (a : ctl json) : option json :=
  match a with
  | Next (JObj d) => dict_get "id" d
  | _ => None
  end.

Definition good (a : ctl json) : Prop := exists v, id_of a = Some v.

(** ** The two halves of the [try] body *)

(** Lines 135-153: the container, by the carousel or the single-image path. *)
Definition container_stage (self : InstagramAPI) (image_paths : list string)
    (caption : string) : M json :=
  if (1 <? length image_paths)%nat then
    print ("캐러셀 이미지 업로드 중... (총 " ++ dec (length image_paths) ++ "장)") ;;
    children_ids <- carousel_items self (length image_paths) 1 image_paths [] ;;
    print "캐러셀 컨테이너 생성 중..." ;;
    _create_carousel_container self children_ids caption
  else
    print "단일 이미지 업로드 중..." ;;
    image_url <- py_first image_paths ;;
    _create_single_media self image_url caption.

(** Lines 155-170: the check of the container, the publish call, the result. *)
Definition publish_stage (self : InstagramAPI) (container : json) : M post_result :=
  has_id <- py_in "id" container ;;
  when_ (negb has_id) (return_ (Failure "미디어 컨테이너 ID를 받지 못했습니다")) ;;
  print "Instagram에 게시물 발행 중..." ;;
  creation_id <- py_getitem container "id" ;;
  publish_data <- _publish_media self creation_id ;;
  has_id <- py_in "id" publish_data ;;
  when_ (negb has_id) (return_ (Failure "게시물 ID를 받지 못했습니다")) ;;
  print "게시물 발행 완료!" ;;
  post_id <- py_getitem publish_data "id" ;;
  return_ (Success post_id
    "이미지가 성공적으로 Instagram에 업로드되었습니다. 원본 파일은 이제 삭제해도 됩니다.").

(** ** The vocabulary of traces

    The log of a run is read call by call: which calls were answered with
    an object that has an [id], and what the answer to the last call makes
    of the run. *)

(** Every call of [todo], made in this order after the calls of [done], is
    answered with a JSON object that has an [id]. *)
Fixpoint all_good_from (E : runtime) (done todo : list request) : Prop :=
  match todo with
  | [] => True
  | rq :: todo' =>
      good (answer (server E done rq)) /\ all_good_from E (done ++ [rq]) todo'
  end.

Abbreviation item_calls self paths := (map (carousel_item_request self) paths).

(** ** What the last call decides *)

Definition has_param (k : string) (rq : request) : bool :=
  match dict_get k (params rq) with
  | Some _ => true
  | None => false
  end.

(** The text of the failure record returned when the answer to [rq], made
    after the calls of [L], is decoded but has no [id]. *)
Definition failure_text (L : list request) (rq : request) : string :=
  if has_param "caption" rq then container_failed
  else if has_param "creation_id" rq then publish_failed
  else item_failed (S (length L)).

(** How the [try] body ends when [rq], made after the calls of [L], is the
    last call it makes. *)
Definition outcome_of (L : list request) (rq : request) (a : ctl json)
    : ctl post_result :=
  match verdict (failure_text L rq) a with
  | Next v => if has_param "creation_id" rq then Return (Success v uploaded)
              else Raise TypeError
  | Return f => Return f
  | Raise e => Raise e
  end.

(** A call that carries a caption carries this one. *)
Definition caption_ok (c : string) (rq : request) : Prop :=
  forall v, dict_get "caption" (params rq) = Some v -> v = JStr c.

(** A call that is not the publish call: it has no [creation_id]. *)
Definition not_publish (rq : request) : Prop :=
  has_param "creation_id" rq = false.

(** In a carousel run the first calls are the item calls, one per path and
    in the order of the paths. *)
Definition items_first (self : InstagramAPI) (paths : list string)
    (log : list request) : Prop :=
  1 < length paths ->
  forall q rq, nth_error log q = Some rq -> q < length paths ->
    exists u, nth_error paths q = Some u /\ rq = carousel_item_request self u.

(** What holds of every run of the [try] body that ends with [c] and the
    log [log]: every call but the last was answered with an object that has
    an [id], the answer to the last call decides how the run ends, the
    calls have the expected form, and only the last call can be the publish
    call. *)
Definition traced (self : InstagramAPI) (E : runtime) (paths : list string)
    (caption : string) (c : ctl post_result) (log : list request) : Prop :=
  all_good_from E [] (removelast log) /\
  (forall L rq, log = (L ++ [rq])%list ->
     c = outcome_of L rq (answer (server E L rq))) /\
  Forall (caption_ok caption) log /\
  items_first self paths log /\
  Forall not_publish (removelast log).

(** ** A call of [post_image] *)

(** How a call of [post_image] ends, in a process that has made no call
    yet: [Next v] when it returns the dict [v], [Raise e] when the exception
    [e] reaches the caller. *)
Definition ended (self : InstagramAPI) (image_paths : image_arg)
    (caption : option string) (E : runtime) : ctl post_result :=
  fst (post_image self image_paths caption E fresh).

(** The calls it made to [requests.post], oldest first. *)
Definition issued (self : InstagramAPI) (image_paths : image_arg)
    (caption : option string) (E : runtime) : list request :=
  calls (snd (post_image self image_paths caption E fresh)).

(** The two calls that create the container that is published. *)
Definition creates_container (self : InstagramAPI) (rq : request) : Prop :=
  (exists u c, rq = single_media_request self u c) \/
  (exists children c, rq = carousel_container_request self children c).

(** ** The wire protocol of the Graph API

    A decoded body is a JSON object; an [id] in it is a string and an
    [error] in it is an object.  The body of a response with a passing
    status decodes; the body of a response with an error status decodes or
    is not JSON (an error page). *)
Definition well_formed_body (j : json) : Prop :=
  exists d, j = JObj d /\
    (forall v, dict_get "id" d = Some v -> exists s, v = JStr s) /\
    (forall v, dict_get "error" d = Some v -> exists d', v = JObj d').

Definition well_formed_response (r : response) : Prop :=
  match content r with
  | Decodes j => well_formed_body j
  | Garbled _ | Refused _ => is_http_error r = true
  | TooDeep => False
  end.

(** Every response the remote end sends, with or without an exception of
    [requests.post], is well formed. *)
Definition follows_protocol (E : runtime) : Prop :=
  forall log rq,
    match server E log rq with
    | Respond r | Fail _ (Some r) => well_formed_response r
    | Fail _ None => True
    end.

(** A request exception whose response, if it has one, is well formed. *)
Definition tame_exn (e : exn) : Prop :=
  is_RequestException e = true /\
  forall r, exn_response e = Some r -> well_formed_response r.

(** A step that ends normally with a value in [P], by [return], or by a
    tame exception. *)
Definition tame {A} (P : A -> Prop) (c : ctl A) : Prop :=
  match c with
  | Next a => P a
  | Return _ => True
  | Raise e => tame_exn e
  end.

Definition is_string (v : json) : Prop := exists s, v = JStr s.

(** ** Concrete surroundings used in the examples *)

Definition client : InstagramAPI :=
  {| access_token := "EAAG-token"; account_id := "17841400000000000";
     api_version := "v18.0"; base_url := "https://graph.facebook.com/v18.0" |}.

Definition tuesday : datetime :=
  {| year := 2024; month := 3; day := 5; weekday := 1 |}.

(** A remote end that gives every call the same reaction. *)
Definition always (o : outcome) : runtime :=
  {| clock := tuesday; server := fun _ _ => o; str_of := fun _ => "" |}.

Definition ok_body (j : json) : outcome :=
  Respond {| status_code := 200; http_error_text := ""; content := Decodes j |}.

(** A remote end that numbers the containers it creates: the [n]-th call is
    answered by [{"id": "<n>"}]. *)
Definition numbering : runtime :=
  {| clock := tuesday;
     server := fun log _ => ok_body (JObj [("id", JStr (dec (S (length log))))]);
     str_of := fun _ => "" |}.

Definition photo : string := "https://example.com/a.jpg".
Definition photos : list string :=
  ["https://example.com/a.jpg"; "https://example.com/b.jpg";
   "https://example.com/c.jpg"].

Definition bad_gateway : outcome :=
  Respond {| status_code := 502;
             http_error_text := "502 Server Error: Bad Gateway for url: https://graph.facebook.com/v18.0/17841400000000000/media";
             content := Decodes (JObj [("error", JStr "Bad Gateway")]) |}.

Definition invalid_url_body : json :=
  JObj [("error", JObj [("message", JStr "Invalid URL")])].

Definition invalid_url : response :=
  {| status_code := 400;
     http_error_text := "400 Client Error: Bad Request for url: https://graph.facebook.com/v18.0/17841400000000000/media";
     content := Decodes invalid_url_body |}.

Definition environ_ok (name : string) : option string :=
  if name =? "INSTAGRAM_ACCESS_TOKEN" then Some "EAAG-token"
  else if name =? "INSTAGRAM_ACCOUNT_ID" then Some "17841400000000000"
  else None.

(** A remote end that answers the second call with an empty object and
    numbers the containers of the other calls. *)
Definition second_item_empty : runtime :=
  {| clock := tuesday;
     server := fun log _ =>
       match log with
       | [_] => ok_body (JObj [])
       | _ => ok_body (JObj [("id", JStr (dec (S (length log))))])
       end;
     str_of := fun _ => "" |}.

(** A remote end that creates containers but answers the publish call,
    the call with a [creation_id], with an empty object. *)
Definition publish_empty : runtime :=
  {| clock := tuesday;
     server := fun log rq =>
       if has_param "creation_id" rq then ok_body (JObj [])
       else ok_body (JObj [("id", JStr (dec (S (length log))))]);
     str_of := fun _ => "" |}.

(** ** Further vocabulary: error bodies *)

(** An error response whose body gives the handler no message to extract:
    it does not decode, or it is an object without [error], or its [error]
    is an object without [message]. *)
Definition no_structured_message (r : response) : Prop :=
  (exists why, content r = Garbled why) \/
  (exists d, content r = Decodes (JObj d) /\ dict_get "error" d = None) \/
  (exists d d', content r = Decodes (JObj d) /\
                dict_get "error" d = Some (JObj d') /\
                dict_get "message" d' = None).

Definition is_object (v : json) : Prop := exists d, v = JObj d.

(** An HTML error page, as a proxy sends it. *)
Definition html_error : response :=
  {| status_code := 503;
     http_error_text := "503 Server Error: Service Unavailable for url: https://graph.facebook.com/v18.0/17841400000000000/media";
     content := Garbled "Expecting value: line 1 column 1 (char 0)" |}.

(** A remote end that cannot be reached. *)
Definition unreachable : runtime :=
  always (Fail "HTTPSConnectionPool(host='graph.facebook.com', port=443): Max retries exceeded" None).

(** ** The runs of the [try] body, case by case *)

(** The step [v] ends the run, and the run ends as [c]. *)
Definition stopped (v : ctl json) (c : ctl post_result) : Prop :=
  match v with
  | Next _ => False
  | Return f => c = Return f
  | Raise e => c = Raise e
  end.

(** The container-creation call [cc] of a run and the calls [pre] before it:
    the single-media call at once, or the carousel-container call after the
    item calls, all answered with an object that has an [id]. *)
Inductive creation (self : InstagramAPI) (E : runtime) (paths : list string)
    (caption : string) : list request -> request -> Prop :=
| creation_single u :
    paths = [u] ->
    creation self E paths caption [] (single_media_request self u caption)
| creation_carousel children :
    1 < length paths ->
    all_good_from E [] (item_calls self paths) ->
    creation self E paths caption (item_calls self paths)
      (carousel_container_request self children caption).

(** The five ways a run of the [try] body goes: no image; the loop stops at
    an item; the ids do not join; the run stops at the container-creation
    call; the publish call is made. *)
Inductive run_of (self : InstagramAPI) (E : runtime) (paths : list string)
    (caption : string) : ctl post_result -> list request -> Prop :=
| run_no_image :
    paths = [] ->
    run_of self E paths caption (Raise IndexError) []
| run_item_stop k u c :
    1 < length paths ->
    nth_error paths k = Some u ->
    all_good_from E [] (item_calls self (firstn k paths)) ->
    stopped (verdict (item_failed (S k))
               (answer (server E (item_calls self (firstn k paths))
                          (carousel_item_request self u)))) c ->
    run_of self E paths caption c
      (item_calls self (firstn k paths) ++ [carousel_item_request self u])
| run_join_error :
    1 < length paths ->
    all_good_from E [] (item_calls self paths) ->
    run_of self E paths caption (Raise TypeError) (item_calls self paths)
| run_container_stop pre cc c :
    creation self E paths caption pre cc ->
    stopped (verdict container_failed (answer (server E pre cc))) c ->
    run_of self E paths caption c (pre ++ [cc])
| run_published pre cc cid :
    creation self E paths caption pre cc ->
    id_of (answer (server E pre cc)) = Some cid ->
    run_of self E paths caption
      (outcome_of (pre ++ [cc]) (publish_request self cid)
         (answer (server E (pre ++ [cc]) (publish_request self cid))))
      (pre ++ [cc; publish_request self cid]).

(** A call a run on [paths] with [caption] may make: an item call for one
    of the paths or the carousel-container call (more than one path), the
    single-media call (one path), or the publish call. *)
Definition expected_call (self : InstagramAPI) (paths : list string)
    (caption : string) (rq : request) : Prop :=
  (1 < length paths /\
   exists u, In u paths /\ rq = carousel_item_request self u) \/
  (1 < length paths /\
   exists children, rq = carousel_container_request self children caption) \/
  (exists u, paths = [u] /\ rq = single_media_request self u caption) \/
  (exists cid, rq = publish_request self cid).

(** The call goes to one of the two endpoints of the account and carries
    the access token of the client. *)
Definition authenticated (self : InstagramAPI) (rq : request) : Prop :=
  dict_get "access_token" (params rq) = Some (JStr (access_token self)) /\
  (url rq = base_url self ++ "/" ++ account_id self ++ "/media" \/
   url rq = base_url self ++ "/" ++ account_id self ++ "/media_publish").

(** A remote end that numbers its containers with JSON numbers instead of
    strings. *)
Definition numeric_ids : runtime :=
  {| clock := tuesday;
     server := fun log _ => ok_body (JObj [("id", JNum (dec (S (length log))))]);
     str_of := fun _ => "" |}.

(** ** Runs in a process with a past *)

(** The remote end as it is once it has received the calls of [base]. *)
Definition shifted (base : list request) (E : runtime) : runtime :=
  {| clock := clock E;
     server := fun log rq => server E (base ++ log) rq;
     str_of := str_of E |}.

(** The state [st] is the state [st0] with the calls of [base] and the
    lines of [out] before it. *)
Definition extends (base : list request) (out : list string) (st st0 : state)
    : Prop :=
  calls st = (base ++ calls st0)%list /\ stdout st = (out ++ stdout st0)%list.

(** The computation does not look at the past: run after [base] and [out]
    it ends as it does without them against the shifted remote end, and it
    adds the same calls and lines. *)
Definition framed {A} (m : M A) : Prop :=
  forall E base out st st0,
    extends base out st st0 ->
    fst (m E st) = fst (m (shifted base E) st0) /\
    extends base out (snd (m E st)) (snd (m (shifted base E) st0)).

(** ** Reading decimal text *)

Definition is_digit (c : ascii) : bool :=
  (48 <=? nat_of_ascii c)%nat && (nat_of_ascii c <=? 57)%nat.

Fixpoint digits_only (s : string) : bool :=
  match s with
  | EmptyString => true
  | String c s' => is_digit c && digits_only s'
  end.

(** The number a decimal text stands for, leading zeros allowed. *)
Definition decimal_value (s : string) : option nat :=
  option_map Nat.of_uint (NilZero.uint_of_string s).

(** ** The self-test *)

(** The report [main] prints after a test. *)
Definition report (result : post_result) : M unit :=
  match result with
  | Success post_id status =>
      shown <- format_value post_id ;;
      print ("포스팅 성공! 게시물 ID: " ++ shown) ;;
      print status
  | Failure error =>
      print ("포스팅 실패: " ++ error)
  end.

(** The calls of the first test of [main], and the remote end as the second
    test finds it. *)
Definition first_test_calls (api : InstagramAPI) (E : runtime) : list request :=
  issued api (Str single_image) None E.

Definition after_first_test (api : InstagramAPI) (E : runtime) : runtime :=
  shifted (first_test_calls api E) E.

(** A process environment without the account identifier. *)
Definition environ_without_account (name : string) : option string :=
  if name =? "INSTAGRAM_ACCESS_TOKEN" then Some "EAAG-token" else None.

(** ** What a private method does with one call *)

(** The computation [m] makes the one call [rq] and prints nothing; it
    returns the decoded body exactly when the call is answered with a
    passing status and a body that decodes; it has no [return] of
    [post_image]'s; when [requests.post] raises, that exception is its
    outcome; and when the status is 4xx or 5xx, its outcome is the
    [HTTPError] of [raise_for_status], carrying the response. *)
Definition one_call (m : M json) (rq : request) (E : runtime) (st : state)
    : Prop :=
  calls (snd (m E st)) = (calls st ++ [rq])%list /\
  stdout (snd (m E st)) = stdout st /\
  (forall j, fst (m E st) = Next j <-> replies E (calls st) rq j) /\
  (forall v, fst (m E st) <> Return v) /\
  (forall text resp,
     server E (calls st) rq = Fail text resp ->
     fst (m E st) = Raise (RequestException text resp)) /\
  (forall r,
     server E (calls st) rq = Respond r ->
     is_http_error r = true ->
     fst (m E st) = Raise (RequestException (http_error_text r) (Some r))).

(** ** Basic facts *)

Lemma api_call_run rq E st :
  api_call rq E st = (answer (server E (calls st) rq), push rq st).
Proof.
  unfold api_call, bind, requests_post, raise_for_status, response_json, answer,
    push, is_http_error.
  destruct rq as [u p]; cbn [url params].
  destruct (server E (calls st) _) as [r | text resp]; [| reflexivity].
  destruct (_ && _)%bool; [reflexivity |].
  unfold ret, raise. destruct (content r); reflexivity.
Qed.

Lemma create_single_media_call self u c :
  _create_single_media self u c = api_call (single_media_request self u c).
Proof. reflexivity. Qed.

Lemma create_carousel_item_call self u :
  _create_carousel_item self u = api_call (carousel_item_request self u).
Proof. reflexivity. Qed.

Lemma publish_media_call self cid :
  _publish_media self cid = api_call (publish_request self cid).
Proof. reflexivity. Qed.

Lemma create_carousel_container_run self ids c E st :
  _create_carousel_container self ids c E st =
  match strs ids with
  | Some ss => api_call (carousel_container_request self (String.concat "," ss) c) E st
  | None => (Raise TypeError, st)
  end.
Proof.
  unfold _create_carousel_container, py_join, bind.
  destruct (strs ids); reflexivity.
Qed.

Lemma get_formatted_date_run self E st :
  _get_formatted_date self E st = (Next (formatted_date (clock E)), st).
Proof. reflexivity. Qed.

Lemma replies_answer E log rq j : replies E log rq j -> answer (server E log rq) = Next j.
Proof.
  intros (r & Hs & Hok & Hc). unfold answer. now rewrite Hs, Hok, Hc.
Qed.

(** ** The check of an answer and one round of the loop *)

Lemma verdict_next fail a v : verdict fail a = Next v <-> id_of a = Some v.
Proof.
  destruct a as [j | f | e]; cbn; try (split; discriminate).
  destruct j as [ | b | n | s | l | d]; cbn; try (split; discriminate).
  - destruct (is_substring _ _); split; discriminate.
  - destruct (existsb _ _); split; discriminate.
  - destruct (dict_get "id" d); split; congruence.
Qed.

Lemma verdict_lacking fail d :
  dict_get "id" d = None -> verdict fail (Next (JObj d)) = Return (Failure fail).
Proof. intros H. cbn. now rewrite H. Qed.

Lemma lacking_not_good d : dict_get "id" d = None -> ~ good (Next (JObj d)).
Proof. intros H [v Hv]. cbn in Hv. congruence. Qed.

Lemma raise_not_good e : ~ good (Raise e).
Proof. intros [v Hv]. discriminate. Qed.

(** One round of the loop. *)
Lemma carousel_items_step self total i u rest ids E st :
  carousel_items self total i (u :: rest) ids E st =
  let st1 := push (carousel_item_request self u)
               (say ("이미지 " ++ dec i ++ "/" ++ dec total ++ " 처리 중...") st) in
  match verdict (item_failed i)
          (answer (server E (calls st) (carousel_item_request self u))) with
  | Next v => carousel_items self total (S i) rest (ids ++ [v]) E st1
  | Return f => (Return f, st1)
  | Raise e => (Raise e, st1)
  end.
Proof.
  cbn [carousel_items]. unfold bind at 1. unfold print at 1.
  unfold bind at 1. rewrite create_carousel_item_call, api_call_run.
  cbn [calls]. fold (say ("이미지 " ++ dec i ++ "/" ++ dec total ++ " 처리 중...") st).
  destruct (answer _) as [j | f | e]; cbn [verdict]; try reflexivity.
  destruct j as [ | b | n | s | l | d]; try reflexivity; cbn [check_id];
    unfold bind, py_in, ret, when_, return_.
  - destruct (is_substring _ _); reflexivity.
  - destruct (existsb _ _); reflexivity.
  - cbn [py_getitem negb]. destruct (dict_get "id" d); reflexivity.
Qed.

(** ** The trace of the carousel loop, proved *)

Lemma all_good_from_app E todo1 : forall done todo2,
  all_good_from E done (todo1 ++ todo2) <->
  all_good_from E done todo1 /\ all_good_from E (done ++ todo1) todo2.
Proof.
  induction todo1 as [| rq todo1 IH]; intros done todo2; cbn.
  - rewrite app_nil_r. tauto.
  - rewrite IH, <- app_assoc. cbn. tauto.
Qed.

Lemma all_good_from_middle E done A rq B :
  all_good_from E done (A ++ rq :: B) -> good (answer (server E (done ++ A) rq)).
Proof.
  intros H. apply all_good_from_app in H. cbn in H. tauto.
Qed.

(** The loop makes its item calls in the order of the list.  Either all of
    them are answered with an object that has an [id], or the loop stops at
    the first one that is not, and how it stops is decided by that answer. *)
Lemma carousel_items_trace self total rest : forall i ids E st,
  exists p,
    p <= length rest /\
    all_good_from E (calls st) (item_calls self (firstn p rest)) /\
    match carousel_items self total i rest ids E st with
    | (Next _, st') =>
        p = length rest /\
        calls st' = (calls st ++ item_calls self (firstn p rest))%list
    | (Return f, st') =>
        exists u, nth_error rest p = Some u /\
          calls st' = (calls st ++ item_calls self (firstn p rest)
                         ++ [carousel_item_request self u])%list /\
          verdict (item_failed (i + p))
            (answer (server E (calls st ++ item_calls self (firstn p rest))
                       (carousel_item_request self u))) = Return f
    | (Raise e, st') =>
        exists u, nth_error rest p = Some u /\
          calls st' = (calls st ++ item_calls self (firstn p rest)
                         ++ [carousel_item_request self u])%list /\
          verdict (item_failed (i + p))
            (answer (server E (calls st ++ item_calls self (firstn p rest))
                       (carousel_item_request self u))) = Raise e
    end.
Proof.
  induction rest as [| u rest IH]; intros i ids E st.
  - exists 0. cbn. rewrite app_nil_r. auto.
  - rewrite carousel_items_step. cbv zeta.
    set (st1 := push _ _).
    assert (Hst1 : calls st1 = (calls st ++ [carousel_item_request self u])%list)
      by reflexivity.
    destruct (verdict _ _) as [v | f | e] eqn:Hv.
    + destruct (IH (S i) (ids ++ [v])%list E st1) as (p & Hp & Hgood & Hend).
      exists (S p). split; [cbn; lia |]. split.
      { cbn. split; [| now rewrite <- Hst1].
        exists v. now apply (verdict_next (item_failed i)). }
      rewrite Hst1 in Hend. cbn [firstn map].
      destruct (carousel_items _ _ _ _ _ _ _) as [[ids' | f | e] st'].
      * destruct Hend as [-> ->]. now rewrite <- app_assoc.
      * destruct Hend as (u' & Hn & -> & Hf). exists u'.
        rewrite <- !app_assoc in *. rewrite Nat.add_succ_r. auto.
      * destruct Hend as (u' & Hn & -> & Hf). exists u'.
        rewrite <- !app_assoc in *. rewrite Nat.add_succ_r. auto.
    + exists 0. cbn. rewrite Nat.add_0_r, app_nil_r. split; [lia |].
      split; [exact I |]. exists u. auto.
    + exists 0. cbn. rewrite Nat.add_0_r, app_nil_r. split; [lia |].
      split; [exact I |]. exists u. auto.
Qed.

(** ** [post_image] in terms of its [try] body *)

Lemma post_image_try_stages self image_paths caption E st :
  post_image_try self image_paths caption E st =
  (container <- container_stage self (paths_of image_paths) (caption_sent E caption) ;;
   publish_stage self container) E st.
Proof.
  unfold post_image_try, bind at 1. destruct caption as [c |].
  - reflexivity.
  - rewrite get_formatted_date_run. reflexivity.
Qed.

(** The handler makes no call and prints nothing. *)
Lemma post_image_except_state e E st : snd (post_image_except e E st) = st.
Proof.
  unfold post_image_except, bind, try_except, return_, ret.
  destruct (exn_response e) as [r |]; [| reflexivity].
  unfold response_json.
  destruct (content r) as [j | why | why | ]; [| reflexivity ..].
  unfold py_in, ret, raise.
  destruct j as [ | b | n | s | l | d]; cbn; try reflexivity.
  - destruct (is_substring "error" s); reflexivity.
  - destruct (existsb (is_str "error") l); reflexivity.
  - destruct (dict_get "error" d) as [err |]; [| reflexivity].
    destruct err; reflexivity.
Qed.

Lemma post_image_except_result e E st :
  fst (post_image_except e E st) = fst (post_image_except e E fresh).
Proof.
  unfold post_image_except, bind, try_except, return_, ret.
  destruct (exn_response e) as [r |]; [| reflexivity].
  unfold response_json.
  destruct (content r) as [j | why | why | ]; [| reflexivity ..].
  unfold py_in, ret, raise.
  destruct j as [ | b | n | s | l | d]; cbn; try reflexivity.
  - destruct (is_substring "error" s); reflexivity.
  - destruct (existsb (is_str "error") l); reflexivity.
  - destruct (dict_get "error" d) as [err |]; [| reflexivity].
    destruct err; reflexivity.
Qed.

(** [post_image] in terms of its [try] body: the calls are those of the
    body, a [return] becomes the result, a request exception goes through
    the handler and any other exception goes on to the caller. *)
Lemma post_image_calls self image_paths caption E st :
  calls (snd (post_image self image_paths caption E st)) =
  calls (snd (post_image_try self image_paths caption E st)).
Proof.
  unfold post_image, def, try_except.
  destruct (post_image_try _ _ _ E st) as [[v | v | e] st']; try reflexivity.
  destruct (is_RequestException e); [| reflexivity].
  pose proof (post_image_except_state e E st') as Hs.
  destruct (post_image_except e E st') as [[v | v | e'] st'']; cbn in *; now subst.
Qed.

Lemma post_image_result self image_paths caption E st :
  fst (post_image self image_paths caption E st) =
  match fst (post_image_try self image_paths caption E st) with
  | Next v | Return v => Next v
  | Raise e =>
      if is_RequestException e then
        match fst (post_image_except e E fresh) with
        | Return v => Next v
        | other => other
        end
      else Raise e
  end.
Proof.
  unfold post_image, def, try_except.
  destruct (post_image_try _ _ _ E st) as [[v | v | e] st']; try reflexivity.
  cbn [fst]. destruct (is_RequestException e); [| reflexivity].
  rewrite <- (post_image_except_result e E st').
  destruct (post_image_except e E st') as [[v | v | e'] st'']; reflexivity.
Qed.

(** ** The trace of a whole run, proved *)

Lemma publish_stage_trace self container E st :
  match check_id container_failed container, publish_stage self container E st with
  | Next cid, (c, st') =>
      calls st' = (calls st ++ [publish_request self cid])%list /\
      c = outcome_of (calls st) (publish_request self cid)
            (answer (server E (calls st) (publish_request self cid)))
  | Return f, (c, st') => calls st' = calls st /\ c = Return f
  | Raise e, (c, st') => calls st' = calls st /\ c = Raise e
  end.
Proof.
  unfold publish_stage.
  destruct container as [ | b | n | s | l | d]; cbn [check_id];
    try (cbn; auto; fail).
  - unfold bind, py_in, ret. destruct (is_substring "id" s); cbn; auto.
  - unfold bind, py_in, ret. destruct (existsb (is_str "id") l); cbn; auto.
  - unfold bind at 1, py_in at 1, ret at 1.
    destruct (dict_get "id" d) as [cid |] eqn:Hd; [| cbn; rewrite Hd; cbn; auto].
    unfold bind at 1, when_ at 1, ret at 1. cbn [negb].
    unfold bind at 1, print at 1. unfold bind at 1, py_getitem at 1.
    rewrite Hd. unfold ret at 1. unfold bind at 1.
    rewrite publish_media_call, api_call_run. cbn [calls push].
    unfold outcome_of. cbn [failure_text has_param publish_request params dict_get].
    cbn.
    destruct (answer _) as [j | f | e]; cbn [verdict]; auto.
    destruct j as [ | b | n | s | l | d']; cbn; auto.
    + destruct (is_substring "id" s); cbn; auto.
    + destruct (existsb (is_str "id") l); cbn; auto.
    + destruct (dict_get "id" d'); cbn; auto.
Qed.

Lemma firstn_snoc {A} (l : list A) : forall p u,
  nth_error l p = Some u -> (firstn p l ++ [u])%list = firstn (S p) l.
Proof.
  induction l as [| x l IH]; intros [| p] u H; cbn in *; try discriminate.
  - now injection H as ->.
  - f_equal. now apply IH.
Qed.

Lemma nth_error_firstn_some {A} (l : list A) : forall k q x,
  nth_error (firstn k l) q = Some x -> nth_error l q = Some x.
Proof.
  induction l as [| y l IH]; intros [| k] [| q] x H; cbn in *;
    try discriminate; auto.
  now apply IH with k.
Qed.

Lemma items_first_prefix self paths k X :
  (k < length paths -> X = []) ->
  items_first self paths (item_calls self (firstn k paths) ++ X).
Proof.
  intros HX Hlen q rq Hq Hlt.
  destruct (Nat.lt_ge_cases q (length (item_calls self (firstn k paths))))
    as [Hin | Hout].
  - rewrite nth_error_app1 in Hq by exact Hin.
    rewrite nth_error_map in Hq.
    destruct (nth_error (firstn k paths) q) as [u |] eqn:Hu; [| discriminate].
    injection Hq as <-. exists u. split; [| reflexivity].
    now apply nth_error_firstn_some with k.
  - rewrite length_map, length_firstn in Hout.
    assert (Hk : k < length paths) by lia.
    rewrite (HX Hk), app_nil_r in Hq.
    assert (Hq' : nth_error (item_calls self (firstn k paths)) q <> None)
      by congruence.
    apply nth_error_Some in Hq'.
    rewrite length_map, length_firstn in Hq'. lia.
Qed.

Lemma caption_ok_items self c paths : Forall (caption_ok c) (item_calls self paths).
Proof.
  apply Forall_forall. intros rq Hin. apply in_map_iff in Hin.
  destruct Hin as (u & <- & _). intros v Hv. discriminate.
Qed.

Lemma all_good_removelast E X : forall done,
  all_good_from E done X -> all_good_from E done (removelast X).
Proof.
  induction X as [| y X _] using rev_ind; intros done H; [exact H |].
  rewrite removelast_last. now apply all_good_from_app in H.
Qed.

Lemma traced_stop_at_last self E paths caption c L rq :
  all_good_from E [] L ->
  c = outcome_of L rq (answer (server E L rq)) ->
  Forall (caption_ok caption) (L ++ [rq]) ->
  items_first self paths (L ++ [rq]) ->
  Forall not_publish L ->
  traced self E paths caption c (L ++ [rq]).
Proof.
  intros Hgood Hc Hcap Hitems Hnp. repeat split; auto.
  - now rewrite removelast_last.
  - intros L' rq' Heq. apply app_inj_tail in Heq. destruct Heq as [<- <-].
    exact Hc.
  - now rewrite removelast_last.
Qed.

Lemma not_publish_items self paths : Forall not_publish (item_calls self paths).
Proof.
  apply Forall_forall. intros rq Hin. apply in_map_iff in Hin.
  destruct Hin as (u & <- & _). reflexivity.
Qed.

Lemma Forall_removelast {A} (P : A -> Prop) (l : list A) :
  Forall P l -> Forall P (removelast l).
Proof.
  induction l as [| y l _] using rev_ind; intros H; [exact H |].
  rewrite removelast_last. now apply Forall_app in H.
Qed.

Lemma outcome_of_item self L u a :
  outcome_of L (carousel_item_request self u) a =
  match verdict (item_failed (S (length L))) a with
  | Next _ => Raise TypeError
  | Return f => Return f
  | Raise e => Raise e
  end.
Proof. reflexivity. Qed.

Lemma outcome_of_container L rq a :
  has_param "caption" rq = true ->
  outcome_of L rq a =
  match verdict container_failed a with
  | Next v => if has_param "creation_id" rq then Return (Success v uploaded)
              else Raise TypeError
  | Return f => Return f
  | Raise e => Raise e
  end.
Proof. intros H. unfold outcome_of, failure_text. now rewrite H. Qed.

Lemma outcome_of_publish self L cid a :
  outcome_of L (publish_request self cid) a =
  match verdict publish_failed a with
  | Next v => Return (Success v uploaded)
  | Return f => Return f
  | Raise e => Raise e
  end.
Proof. reflexivity. Qed.

Lemma traced_items_then_type_error self E paths caption :
  all_good_from E [] (item_calls self paths) ->
  traced self E paths caption (Raise TypeError) (item_calls self paths).
Proof.
  intros Hgood. repeat split.
  - now apply all_good_removelast.
  - intros L rq Heq.
    assert (Hin : In rq (item_calls self paths))
      by (rewrite Heq; apply in_or_app; right; now left).
    apply in_map_iff in Hin. destruct Hin as (u & <- & _).
    rewrite Heq in Hgood. apply all_good_from_middle in Hgood.
    destruct Hgood as [v Hv]. rewrite outcome_of_item.
    apply (verdict_next (item_failed (S (length L)))) in Hv.
    cbn [app] in Hv. now rewrite Hv.
  - apply caption_ok_items.
  - pose proof (items_first_prefix self paths (length paths) []
                  (fun _ => eq_refl)) as H.
    now rewrite firstn_all, app_nil_r in H.
  - apply Forall_removelast, not_publish_items.
Qed.

Lemma traced_item_stop self E paths caption p u c :
  nth_error paths p = Some u ->
  p <= length paths ->
  all_good_from E [] (item_calls self (firstn p paths)) ->
  match c with
  | Next _ => False
  | Return f =>
      verdict (item_failed (S p))
        (answer (server E (item_calls self (firstn p paths))
                   (carousel_item_request self u))) = Return f
  | Raise e =>
      verdict (item_failed (S p))
        (answer (server E (item_calls self (firstn p paths))
                   (carousel_item_request self u))) = Raise e
  end ->
  traced self E paths caption c
    (item_calls self (firstn p paths) ++ [carousel_item_request self u]).
Proof.
  intros Hn Hp Hgood Hc. apply traced_stop_at_last; auto.
  - rewrite outcome_of_item, length_map, length_firstn, Nat.min_l by exact Hp.
    destruct c as [v | f | e]; [contradiction | now rewrite Hc ..].
  - change [carousel_item_request self u] with (item_calls self [u]).
    rewrite <- map_app. apply caption_ok_items.
  - change [carousel_item_request self u] with (item_calls self [u]).
    rewrite <- map_app, (firstn_snoc _ _ _ Hn), <- app_nil_r.
    now apply items_first_prefix.
  - apply not_publish_items.
Qed.

(** The container stage, started on an empty log: either it ends the run,
    or its last call is the container-creation call, answered with [j]. *)
Lemma container_stage_trace self paths caption E st :
  calls st = [] ->
  match container_stage self paths caption E st with
  | (Next j, st') =>
      exists L cc,
        calls st' = (L ++ [cc])%list /\
        all_good_from E [] L /\
        answer (server E L cc) = Next j /\
        has_param "caption" cc = true /\
        has_param "creation_id" cc = false /\
        Forall (caption_ok caption) (L ++ [cc]) /\
        (1 < length paths -> L = item_calls self paths) /\
        (length paths <= 1 -> L = []) /\
        Forall not_publish L
  | (Return f, st') => traced self E paths caption (Return f) (calls st')
  | (Raise e, st') => traced self E paths caption (Raise e) (calls st')
  end.
Proof.
  intros Hst. unfold container_stage.
  destruct (1 <? length paths)%nat eqn:Hlen.
  - apply Nat.ltb_lt in Hlen. unfold bind at 1, print at 1. unfold bind at 1.
    match goal with
    | |- context [carousel_items _ _ _ _ _ E ?s] =>
        destruct (carousel_items_trace self (length paths) paths 1 [] E s)
          as (p & Hp & Hgood & Hend);
        destruct (carousel_items self (length paths) 1 paths [] E s)
          as [[ids | f | e] st1];
        cbn [calls] in Hgood, Hend; rewrite Hst in Hgood, Hend;
        cbn [app] in Hend
    end.
    + destruct Hend as [-> Hlog]. rewrite firstn_all in Hgood, Hlog.
      unfold bind at 1, print at 1. rewrite create_carousel_container_run.
      destruct (strs ids) as [ss |].
      * rewrite api_call_run. cbn [calls push]. rewrite Hlog.
        set (cc := carousel_container_request self (String.concat "," ss) caption).
        assert (Hcaps : Forall (caption_ok caption) (item_calls self paths ++ [cc])).
        { apply Forall_app. split; [apply caption_ok_items |].
          constructor; [| constructor]. intros v Hv. cbn in Hv. congruence. }
        assert (Hitems : items_first self paths (item_calls self paths ++ [cc])).
        { pose proof (items_first_prefix self paths (length paths) [cc]) as H.
          rewrite firstn_all in H. apply H. lia. }
        destruct (answer _) as [j | f | e] eqn:Ha.
        -- exists (item_calls self paths), cc.
           repeat split; auto using not_publish_items. lia.
        -- apply traced_stop_at_last; auto using not_publish_items.
           rewrite outcome_of_container, Ha by reflexivity. reflexivity.
        -- apply traced_stop_at_last; auto using not_publish_items.
           rewrite outcome_of_container, Ha by reflexivity. reflexivity.
      * cbn [calls]. rewrite Hlog. now apply traced_items_then_type_error.
    + destruct Hend as (u & Hn & -> & Hf). now apply traced_item_stop.
    + destruct Hend as (u & Hn & -> & Hf). now apply traced_item_stop.
  - apply Nat.ltb_ge in Hlen. unfold bind at 1, print at 1. unfold bind at 1.
    destruct paths as [| u paths']; unfold py_first.
    + unfold raise. cbn [calls]. rewrite Hst. repeat split.
      * intros L rq Heq. now destruct L.
      * constructor.
      * intros H. cbn in H. lia.
      * constructor.
    + unfold ret at 1. rewrite create_single_media_call, api_call_run.
      cbn [calls push]. rewrite Hst. cbn [app].
      set (cc := single_media_request self u caption).
      assert (Hcaps : Forall (caption_ok caption) ([] ++ [cc])).
      { constructor; [| constructor]. intros v Hv. cbn in Hv. congruence. }
      assert (Hitems : items_first self (u :: paths') ([] ++ [cc])).
      { intros H. lia. }
      destruct (answer _) as [j | f | e] eqn:Ha.
      * exists [], cc. repeat split; auto. intros H. lia.
      * apply (traced_stop_at_last _ _ _ _ _ [] cc); auto. exact I.
        rewrite outcome_of_container, Ha by reflexivity. reflexivity.
      * apply (traced_stop_at_last _ _ _ _ _ [] cc); auto. exact I.
        rewrite outcome_of_container, Ha by reflexivity. reflexivity.
Qed.

Lemma items_first_carousel self paths L X :
  (1 < length paths -> L = item_calls self paths) ->
  items_first self paths (L ++ X).
Proof.
  intros HL Hlen. rewrite (HL Hlen).
  pose proof (items_first_prefix self paths (length paths) X) as H.
  rewrite firstn_all in H. apply H; lia.
Qed.

(** Every run of the [try] body, started on an empty log, is [traced]. *)
Lemma post_image_try_trace self image_paths caption E :
  traced self E (paths_of image_paths) (caption_sent E caption)
    (fst (post_image_try self image_paths caption E fresh))
    (calls (snd (post_image_try self image_paths caption E fresh))).
Proof.
  rewrite post_image_try_stages. unfold bind.
  pose proof (container_stage_trace self (paths_of image_paths)
                (caption_sent E caption) E fresh eq_refl) as HA.
  destruct (container_stage _ _ _ E fresh) as [[j | f | e] st1];
    [| exact HA | exact HA].
  destruct HA as (L & cc & Hlog & Hgood & Ha & Hcap & Hcid & Hcaps & Hcar & _ & Hnp).
  pose proof (publish_stage_trace self j E st1) as HB.
  destruct (publish_stage self j E st1) as [c st2]. cbn [fst snd].
  assert (Hcc : outcome_of L cc (Next j) =
                match check_id container_failed j with
                | Next v => Raise TypeError
                | Return f => Return f
                | Raise e => Raise e
                end).
  { rewrite outcome_of_container by exact Hcap. cbn [verdict]. now rewrite Hcid. }
  destruct (check_id container_failed j) as [cid | f | e] eqn:Hcheck.
  - destruct HB as [-> ->]. rewrite Hlog.
    apply traced_stop_at_last; auto.
    + apply all_good_from_app. split; [exact Hgood |]. cbn. split; [| exact I].
      exists cid. rewrite Ha.
      now apply (verdict_next container_failed (Next j)).
    + apply Forall_app. split; [exact Hcaps |].
      constructor; [| constructor]. intros v Hv. discriminate.
    + rewrite <- app_assoc. now apply items_first_carousel.
    + apply Forall_app. split; [exact Hnp |]. now constructor.
  - destruct HB as [-> ->]. rewrite Hlog.
    apply traced_stop_at_last; auto.
    + now rewrite Ha, Hcc.
    + now apply items_first_carousel.
  - destruct HB as [-> ->]. rewrite Hlog.
    apply traced_stop_at_last; auto.
    + now rewrite Ha, Hcc.
    + now apply items_first_carousel.
Qed.

(** A call that was not answered with an object that has an [id] is the
    last call of the run, and it decides how the [try] body ends. *)
Lemma stops_at_bad_answer self image_paths caption E L rq rest :
  issued self image_paths caption E = (L ++ rq :: rest)%list ->
  ~ good (answer (server E L rq)) ->
  rest = [] /\
  fst (post_image_try self image_paths caption E fresh)
    = outcome_of L rq (answer (server E L rq)).
Proof.
  unfold issued. rewrite post_image_calls. intros Hlog Hbad.
  destruct (post_image_try_trace self image_paths caption E)
    as (Hgood & Hlast & _ & _ & _).
  rewrite Hlog in Hgood, Hlast.
  assert (Hrest : rest = []).
  { destruct rest as [| rq' rest']; [reflexivity |]. exfalso. apply Hbad.
    rewrite removelast_app in Hgood by discriminate.
    change (removelast (rq :: rq' :: rest'))
      with (rq :: removelast (rq' :: rest')) in Hgood.
    now apply all_good_from_middle in Hgood. }
  split; [exact Hrest |]. subst rest. now apply Hlast.
Qed.

Lemma ended_of_try self image_paths caption E :
  ended self image_paths caption E =
  match fst (post_image_try self image_paths caption E fresh) with
  | Next v | Return v => Next v
  | Raise e =>
      if is_RequestException e then
        match fst (post_image_except e E fresh) with
        | Return v => Next v
        | other => other
        end
      else Raise e
  end.
Proof. apply post_image_result. Qed.

(** The handler on an [HTTPError] whose body is a JSON object with an
    [error] object that has a string [message]. *)
Lemma except_structured_message E text r d d' m :
  content r = Decodes (JObj d) ->
  dict_get "error" d = Some (JObj d') ->
  dict_get "message" d' = Some (JStr m) ->
  fst (post_image_except (RequestException text (Some r)) E fresh)
    = Return (Failure (error_prefix ++ m)).
Proof.
  intros Hc Hd Hm.
  unfold post_image_except, bind, try_except, response_json. cbn [exn_response].
  rewrite Hc. unfold ret at 1. unfold py_in, ret at 1. rewrite Hd.
  unfold py_getitem. rewrite Hd. unfold ret at 1. unfold py_get. rewrite Hm.
  reflexivity.
Qed.

(** ** Examples *)

Example formatted_date_tuesday :
  formatted_date tuesday = "2024년 03월 05일 화요일 MQ 글로벌 증권가 뉴스".
Proof. reflexivity. Qed.

Example carousel_of_three :
  ended client (Lst photos) (Some "three") numbering
    = Next (Success (JStr "5") uploaded) /\
  issued client (Lst photos) (Some "three") numbering
    = [carousel_item_request client "https://example.com/a.jpg";
       carousel_item_request client "https://example.com/b.jpg";
       carousel_item_request client "https://example.com/c.jpg";
       carousel_container_request client "1,2,3" "three";
       publish_request client (JStr "4")].
Proof. split; reflexivity. Qed.

(** ** The claims *)

(** C1 (the code departs from it).  [post_image] is meant to hand every
    transport failure back as a failure record.  Here the single-media call
    is answered by HTTP 502 with the JSON body [{"error": "Bad Gateway"}]:
    [raise_for_status] raises, the handler finds the key [error] and calls
    [.get] on the string bound to it, and the [AttributeError] reaches the
    caller of [post_image]. *)
Theorem post_image_raises_on_unstructured_error :
  ended client (Str photo) (Some "hello") (always bad_gateway)
    = Raise AttributeError.
Proof. reflexivity. Qed.

(** C2 as stated fails: with HTTP 400 and the body
    [{"error": {"message": "Invalid URL"}}] on the first call, the error
    text of the failure record is not ["Invalid URL"]; the handler puts a
    fixed prefix before the extracted message. *)
Lemma http_400_error_text_is_not_bare :
  server (always (Respond invalid_url)) [] (single_media_request client photo "hello")
    = Respond invalid_url /\
  status_code invalid_url = 400%Z /\
  content invalid_url = Decodes invalid_url_body /\
  ended client (Str photo) (Some "hello") (always (Respond invalid_url))
    = Next (Failure "Instagram 포스팅 중 오류 발생: Invalid URL") /\
  ended client (Str photo) (Some "hello") (always (Respond invalid_url))
    <> Next (Failure "Invalid URL").
Proof. repeat split; try reflexivity. cbv. discriminate. Qed.

(** C2, amended.  Whenever a call made by [post_image] is answered by
    HTTP 400 with the body [{"error": {"message": "Invalid URL"}}],
    [post_image] makes no further call and returns the failure record whose
    error text is ["Instagram 포스팅 중 오류 발생: Invalid URL"]. *)
Theorem http_400_error_text self image_paths caption E L rq rest r :
  issued self image_paths caption E = (L ++ rq :: rest)%list ->
  server E L rq = Respond r ->
  status_code r = 400%Z ->
  content r = Decodes invalid_url_body ->
  ended self image_paths caption E
    = Next (Failure "Instagram 포스팅 중 오류 발생: Invalid URL") /\
  rest = [].
Proof.
  intros Hlog Hs Hst Hc.
  assert (Ha : answer (server E L rq)
               = Raise (RequestException (http_error_text r) (Some r))).
  { unfold answer, is_http_error. now rewrite Hs, Hst. }
  destruct (stops_at_bad_answer _ _ _ _ _ _ _ Hlog) as [Hrest Htry].
  { rewrite Ha. apply raise_not_good. }
  split; [| exact Hrest].
  rewrite ended_of_try, Htry, Ha. unfold outcome_of. cbn [verdict is_RequestException].
  now rewrite (except_structured_message E _ r _ _ "Invalid URL" Hc eq_refl eq_refl).
Qed.

Lemma http_400_error_text_witness :
  ended client (Str photo) (Some "hello") (always (Respond invalid_url))
    = Next (Failure "Instagram 포스팅 중 오류 발생: Invalid URL") /\
  @nil request = [].
Proof.
  apply (http_400_error_text client (Str photo) (Some "hello")
           (always (Respond invalid_url)) []
           (single_media_request client photo "hello") [] invalid_url);
    reflexivity.
Defined.

Lemma strs_map_JStr ids : strs (map JStr ids) = Some ids.
Proof.
  induction ids as [| s ids IH]; [reflexivity |]. cbn. now rewrite IH.
Qed.

Lemma carousel_items_all_good self total rest : forall i acc E st ids,
  length ids = length rest ->
  (forall k u, nth_error rest k = Some u ->
     exists d,
       replies E (calls st ++ item_calls self (firstn k rest))
         (carousel_item_request self u) (JObj d) /\
       dict_get "id" d = Some (JStr (nth k ids ""))) ->
  exists st',
    carousel_items self total i rest acc E st = (Next (acc ++ map JStr ids)%list, st') /\
    calls st' = (calls st ++ item_calls self rest)%list.
Proof.
  induction rest as [| u rest IH]; intros i acc E st ids Hlen Hall.
  - destruct ids; [| discriminate]. exists st. cbn. now rewrite !app_nil_r.
  - destruct ids as [| s ids]; [discriminate |].
    rewrite carousel_items_step. cbv zeta.
    destruct (Hall 0 u eq_refl) as (d & Hr & Hd).
    cbn [firstn map nth] in Hr, Hd. rewrite app_nil_r in Hr.
    rewrite (replies_answer _ _ _ _ Hr). cbn [verdict check_id]. rewrite Hd.
    match goal with
    | |- context [carousel_items _ _ _ _ _ E ?s1] =>
        destruct (IH (S i) (acc ++ [JStr s])%list E s1 ids) as (st' & Hrun & Hcalls)
    end.
    + cbn in Hlen. lia.
    + intros k u' Hk. destruct (Hall (S k) u' Hk) as (d' & Hr' & Hd').
      exists d'. split; [| exact Hd'].
      cbn [calls push say]. rewrite <- app_assoc. exact Hr'.
    + exists st'. rewrite Hrun, Hcalls. cbn [calls push say map].
      now rewrite <- !app_assoc.
Qed.

(** C3.  For a list of more than one URL whose item calls are all answered
    with an object that holds a string [id], the calls of [post_image]
    begin with one carousel-item call per URL, in the order of the list,
    followed by one carousel-container call whose [children] are these ids
    joined by commas in the same order and whose [caption] is the caption
    given (the default for [None]).  Whatever follows is at most the publish
    call, so there is no other item or container call. *)
Theorem carousel_calls_in_order self urls caption E ids :
  1 < length urls ->
  length ids = length urls ->
  (forall k u, nth_error urls k = Some u ->
     exists d,
       replies E (item_calls self (firstn k urls))
         (carousel_item_request self u) (JObj d) /\
       dict_get "id" d = Some (JStr (nth k ids ""))) ->
  exists rest,
    issued self (Lst urls) caption E =
      (item_calls self urls
       ++ carousel_container_request self (String.concat "," ids)
            (caption_sent E caption) :: rest)%list /\
    (rest = [] \/ exists cid, rest = [publish_request self cid]).
Proof.
  intros Hlen Hids Hall. unfold issued.
  rewrite post_image_calls, post_image_try_stages.
  unfold bind at 1. unfold container_stage. cbn [paths_of].
  rewrite (proj2 (Nat.ltb_lt _ _) Hlen).
  unfold bind at 1, print at 1. unfold bind at 1.
  match goal with
  | |- context [carousel_items _ _ _ _ _ E ?s0] =>
      destruct (carousel_items_all_good self (length urls) urls 1 [] E s0 ids Hids)
        as (st1 & Hrun & Hcalls); [exact Hall |]
  end.
  rewrite Hrun. cbn [calls fresh app] in Hcalls.
  unfold bind at 1, print at 1. rewrite create_carousel_container_run.
  cbn [app]. rewrite strs_map_JStr, api_call_run. cbn [calls push]. rewrite Hcalls.
  set (cc := carousel_container_request self _ _).
  destruct (answer _) as [j | f | e].
  - match goal with
    | |- context [publish_stage self j E ?s2] =>
        pose proof (publish_stage_trace self j E s2) as HB;
        destruct (publish_stage self j E s2) as [c st3]
    end.
    cbn [calls push] in HB. cbn [snd].
    destruct (check_id container_failed j) as [cid | f | e];
      destruct HB as [-> _].
    + exists [publish_request self cid]. rewrite <- app_assoc. split; eauto.
    + exists []. auto.
    + exists []. auto.
  - exists []. auto.
  - exists []. auto.
Qed.

Lemma carousel_calls_in_order_witness :
  exists rest,
    issued client (Lst photos) (Some "three") numbering =
      (item_calls client photos
       ++ carousel_container_request client "1,2,3" "three" :: rest)%list /\
    (rest = [] \/ exists cid, rest = [publish_request client cid]).
Proof.
  apply (carousel_calls_in_order client photos (Some "three") numbering
           ["1"; "2"; "3"]).
  - cbn. lia.
  - reflexivity.
  - intros k u Hk.
    do 3 (destruct k as [| k];
          [injection Hk as <-;
           eexists; split; [eexists; repeat split |]; reflexivity |]).
    destruct k; discriminate.
Defined.

Lemma items_first_only self paths log :
  items_first self paths log ->
  1 < length paths ->
  length log <= length paths ->
  log = item_calls self (firstn (length log) paths).
Proof.
  intros Hitems Hlen Hlog. apply nth_error_ext. intros n.
  rewrite nth_error_map, nth_error_firstn.
  destruct (Nat.ltb_spec n (length log)) as [Hn | Hn].
  - destruct (nth_error log n) as [rq |] eqn:Hrq.
    + destruct (Hitems Hlen n rq Hrq) as (u & -> & ->); [lia | reflexivity].
    + apply nth_error_None in Hrq. lia.
  - now apply nth_error_None.
Qed.

(** C4.  In a run on more than one URL, let the [i]-th call ([i] at most
    the number of URLs, so the call for the [i]-th URL) be answered with a
    JSON object that has no [id].  Then [post_image] returns the failure
    record whose text names item [i], and that call is the last one: the
    calls of the run are the item calls for the first [i] URLs and nothing
    else, so no further item call, no container call and no publish call. *)
Theorem carousel_item_without_id self urls caption E L rq rest d :
  1 < length urls ->
  issued self (Lst urls) caption E = (L ++ rq :: rest)%list ->
  length L < length urls ->
  replies E L rq (JObj d) ->
  dict_get "id" d = None ->
  ended self (Lst urls) caption E
    = Next (Failure ("캐러셀 아이템 " ++ dec (S (length L)) ++ " 생성 실패")) /\
  rest = [] /\
  issued self (Lst urls) caption E = item_calls self (firstn (S (length L)) urls).
Proof.
  intros Hlen Hlog HL Hr Hd.
  pose proof (replies_answer _ _ _ _ Hr) as Ha.
  destruct (stops_at_bad_answer _ _ _ _ _ _ _ Hlog) as [Hrest Htry].
  { rewrite Ha. now apply lacking_not_good. }
  destruct (post_image_try_trace self (Lst urls) caption E)
    as (_ & _ & _ & Hitems & _).
  unfold issued in *. rewrite post_image_calls in *. cbn [paths_of] in Hitems.
  subst rest.
  assert (Hsize : length (calls (snd (post_image_try self (Lst urls) caption E fresh)))
                  = S (length L))
    by (rewrite Hlog, length_app; cbn; lia).
  pose proof (items_first_only _ _ _ Hitems Hlen) as Hall.
  rewrite Hsize in Hall. specialize (Hall HL).
  split; [| split; [reflexivity | exact Hall]].
  assert (Hrq : exists u, rq = carousel_item_request self u).
  { destruct (Hitems Hlen (length L) rq) as (u & _ & ->); [| exact HL | now exists u].
    rewrite Hlog, nth_error_app2, Nat.sub_diag by lia. reflexivity. }
  destruct Hrq as (u & ->).
  rewrite ended_of_try, Htry, Ha, outcome_of_item.
  now rewrite (verdict_lacking _ _ Hd).
Qed.

Lemma carousel_item_without_id_witness :
  ended client (Lst photos) None second_item_empty
    = Next (Failure "캐러셀 아이템 2 생성 실패") /\
  @nil request = [] /\
  issued client (Lst photos) None second_item_empty
    = item_calls client (firstn 2 photos).
Proof.
  apply (carousel_item_without_id client photos None second_item_empty
           [carousel_item_request client "https://example.com/a.jpg"]
           (carousel_item_request client "https://example.com/b.jpg") [] []).
  - cbn. lia.
  - reflexivity.
  - cbn. lia.
  - eexists. repeat split; reflexivity.
  - reflexivity.
Defined.

(** C6.  For a single URL, given as a string or as a one-element list,
    whose two calls are answered with objects that have an [id]:
    [post_image] makes exactly two calls, the single-media call with the
    URL and the caption and then the publish call with the container's id,
    and returns the success record with the id of the publish answer. *)
Theorem single_image_published self image_paths u caption E d1 cid d2 pid :
  image_paths = Str u \/ image_paths = Lst [u] ->
  replies E [] (single_media_request self u (caption_sent E caption)) (JObj d1) ->
  dict_get "id" d1 = Some cid ->
  replies E [single_media_request self u (caption_sent E caption)]
    (publish_request self cid) (JObj d2) ->
  dict_get "id" d2 = Some pid ->
  ended self image_paths caption E = Next (Success pid uploaded) /\
  issued self image_paths caption E =
    [single_media_request self u (caption_sent E caption);
     publish_request self cid].
Proof.
  intros Hu H1 Hd1 H2 Hd2.
  assert (Hpaths : paths_of image_paths = [u]) by (destruct Hu; now subst).
  assert (Hrun : exists st',
             post_image_try self image_paths caption E fresh
               = (Return (Success pid uploaded), st') /\
             calls st' = [single_media_request self u (caption_sent E caption);
                          publish_request self cid]).
  { rewrite post_image_try_stages. unfold bind at 1.
    unfold container_stage. rewrite Hpaths.
    change (1 <? length [u])%nat with false. cbv iota.
    unfold bind at 1, print at 1. unfold bind at 1, py_first, ret at 1.
    rewrite create_single_media_call, api_call_run. cbn [calls push fresh app].
    rewrite (replies_answer _ _ _ _ H1).
    match goal with
    | |- context [publish_stage self (JObj d1) E ?s] =>
        pose proof (publish_stage_trace self (JObj d1) E s) as HB;
        destruct (publish_stage self (JObj d1) E s) as [c st']
    end.
    cbn [check_id calls push app] in HB. rewrite Hd1 in HB.
    destruct HB as [Hcalls ->]. exists st'. split; [| exact Hcalls].
    rewrite (replies_answer _ _ _ _ H2), outcome_of_publish.
    cbn [verdict check_id]. now rewrite Hd2. }
  destruct Hrun as (st' & Hrun & Hcalls).
  unfold issued. rewrite ended_of_try, post_image_calls, Hrun. auto.
Qed.

Lemma single_image_published_witness :
  ended client (Str photo) None numbering = Next (Success (JStr "2") uploaded) /\
  issued client (Str photo) None numbering =
    [single_media_request client photo "2024년 03월 05일 화요일 MQ 글로벌 증권가 뉴스";
     publish_request client (JStr "1")].
Proof.
  apply (single_image_published client (Str photo) photo None numbering
           [("id", JStr "1")] (JStr "1") [("id", JStr "2")] (JStr "2")).
  - left. reflexivity.
  - eexists. repeat split; reflexivity.
  - reflexivity.
  - eexists. repeat split; reflexivity.
  - reflexivity.
Defined.

(** C7.  If the single-media call or the carousel-container call is
    answered with a JSON object that has no [id], [post_image] returns the
    failure record about the media container, that call is the last one,
    and the run makes no publish call. *)
Theorem container_without_id self image_paths caption E L rq rest d :
  issued self image_paths caption E = (L ++ rq :: rest)%list ->
  creates_container self rq ->
  replies E L rq (JObj d) ->
  dict_get "id" d = None ->
  ended self image_paths caption E
    = Next (Failure "미디어 컨테이너 ID를 받지 못했습니다") /\
  rest = [] /\
  forall cid, ~ In (publish_request self cid) (issued self image_paths caption E).
Proof.
  intros Hlog Hrq Hr Hd.
  pose proof (replies_answer _ _ _ _ Hr) as Ha.
  destruct (stops_at_bad_answer _ _ _ _ _ _ _ Hlog) as [Hrest Htry].
  { rewrite Ha. now apply lacking_not_good. }
  assert (Hcap : has_param "caption" rq = true)
    by (destruct Hrq as [(u & c & ->) | (ch & c & ->)]; reflexivity).
  assert (Hnp : not_publish rq)
    by (destruct Hrq as [(u & c & ->) | (ch & c & ->)]; reflexivity).
  split; [| split; [exact Hrest |]].
  - rewrite ended_of_try, Htry, Ha, outcome_of_container by exact Hcap.
    now rewrite (verdict_lacking _ _ Hd).
  - destruct (post_image_try_trace self image_paths caption E)
      as (_ & _ & _ & _ & Hearly).
    subst rest. unfold issued in *. rewrite post_image_calls in *.
    rewrite Hlog in *. rewrite removelast_last in Hearly.
    intros cid Hin. apply in_app_or in Hin. destruct Hin as [Hin | [Heq | []]].
    + rewrite Forall_forall in Hearly. specialize (Hearly _ Hin). discriminate.
    + rewrite Heq in Hnp. discriminate.
Qed.

Lemma container_without_id_witness :
  ended client (Str photo) (Some "hello") (always (ok_body (JObj [])))
    = Next (Failure "미디어 컨테이너 ID를 받지 못했습니다") /\
  @nil request = [] /\
  forall cid,
    ~ In (publish_request client cid)
        (issued client (Str photo) (Some "hello") (always (ok_body (JObj [])))).
Proof.
  apply (container_without_id client (Str photo) (Some "hello")
           (always (ok_body (JObj []))) []
           (single_media_request client photo "hello") [] []).
  - reflexivity.
  - left. exists photo, "hello". reflexivity.
  - eexists. repeat split; reflexivity.
  - reflexivity.
Defined.

(** C8.  If the publish call is answered with a JSON object that has no
    [id], [post_image] returns the failure record about the post id,
    whatever the calls before it were answered. *)
Theorem publish_without_id self image_paths caption E L cid rest d :
  issued self image_paths caption E = (L ++ publish_request self cid :: rest)%list ->
  replies E L (publish_request self cid) (JObj d) ->
  dict_get "id" d = None ->
  ended self image_paths caption E = Next (Failure "게시물 ID를 받지 못했습니다") /\
  rest = [].
Proof.
  intros Hlog Hr Hd.
  pose proof (replies_answer _ _ _ _ Hr) as Ha.
  destruct (stops_at_bad_answer _ _ _ _ _ _ _ Hlog) as [Hrest Htry].
  { rewrite Ha. now apply lacking_not_good. }
  split; [| exact Hrest].
  rewrite ended_of_try, Htry, Ha, outcome_of_publish.
  now rewrite (verdict_lacking _ _ Hd).
Qed.

Lemma publish_without_id_witness :
  ended client (Lst photos) (Some "three") publish_empty
    = Next (Failure "게시물 ID를 받지 못했습니다") /\
  @nil request = [].
Proof.
  apply (publish_without_id client (Lst photos) (Some "three") publish_empty
           (item_calls client photos
            ++ [carousel_container_request client "1,2,3" "three"])
           (JStr "4") [] []).
  - reflexivity.
  - eexists. repeat split; reflexivity.
  - reflexivity.
Defined.

(** C9.  The constructor raises the configuration error exactly when the
    access token or the account identifier is missing or empty; it has no
    handler of its own, so the error is its outcome.  With both present and
    non-empty it succeeds and stores them. *)
Theorem init_configuration_error (getenv : string -> option string) :
  let token := getenv "INSTAGRAM_ACCESS_TOKEN" in
  let account := getenv "INSTAGRAM_ACCOUNT_ID" in
  (__init__ getenv = inl (ValueError credentials_missing) <->
   token = None \/ token = Some "" \/ account = None \/ account = Some "") /\
  (forall e, __init__ getenv = inl e -> e = ValueError credentials_missing) /\
  (forall t a, token = Some t -> account = Some a -> t <> "" -> a <> "" ->
     exists self, __init__ getenv = inr self /\
                  access_token self = t /\ account_id self = a).
Proof.
  cbv zeta. unfold __init__.
  destruct (getenv "INSTAGRAM_ACCESS_TOKEN") as [[| c t] |];
    destruct (getenv "INSTAGRAM_ACCOUNT_ID") as [[| c' a] |]; cbn;
    repeat split; intros;
    repeat match goal with
      | H : _ \/ _ |- _ => destruct H
      end;
    try discriminate; try congruence; try tauto;
    try (eexists; split; [reflexivity | cbn; split; congruence]).
Qed.

Lemma init_configuration_error_witness :
  exists self, __init__ environ_ok = inr self /\
               access_token self = "EAAG-token" /\
               account_id self = "17841400000000000".
Proof.
  apply (proj2 (proj2 (init_configuration_error environ_ok))
           "EAAG-token" "17841400000000000");
    [reflexivity | reflexivity | discriminate | discriminate].
Defined.

(** C10.  On the empty list [post_image] takes the single-image branch,
    [image_paths[0]] raises [IndexError], the [except] clause does not catch
    it, and it reaches the caller; no call has been made. *)
Theorem empty_list_raises_index_error self caption E st :
  post_image self (Lst []) caption E st
    = (Raise IndexError, say "단일 이미지 업로드 중..." st).
Proof.
  unfold post_image, def, try_except. rewrite post_image_try_stages.
  reflexivity.
Qed.

(** ** Runs against a remote end that follows the wire protocol

    The statement next to C1 that does hold: when every body that
    decodes is a JSON object whose [id] is a string and whose [error] is an
    object, the body of every response with a passing status decodes, and
    the body of a response with an error status decodes or is not JSON,
    [post_image] on a string or a non-empty list returns a dict. *)

Lemma answer_tame E log rq :
  follows_protocol E -> tame well_formed_body (answer (server E log rq)).
Proof.
  intros HE. specialize (HE log rq). unfold answer.
  destruct (server E log rq) as [r | text [r |]]; cbn.
  - destruct (is_http_error r) eqn:Hst; cbn.
    + split; [reflexivity |]. intros r' Hr'. cbn in Hr'. now injection Hr' as <-.
    + unfold well_formed_response in HE.
      destruct (content r) as [j | why | why | ]; cbn;
        [exact HE | congruence | congruence | contradiction].
  - split; [reflexivity |]. intros r' Hr'. cbn in Hr'. now injection Hr' as <-.
  - split; [reflexivity | discriminate].
Qed.

Lemma verdict_tame fail a :
  tame well_formed_body a -> tame is_string (verdict fail a).
Proof.
  destruct a as [j | f | e]; cbn; auto.
  intros (d & -> & Hid & _). cbn.
  destruct (dict_get "id" d) as [v |] eqn:Hd; cbn; [exact (Hid v eq_refl) | exact I].
Qed.

Lemma strs_strings ids : Forall is_string ids -> exists ss, strs ids = Some ss.
Proof.
  induction 1 as [| v ids [s ->] _ [ss IH]]; cbn; [now exists [] |].
  rewrite IH. now exists (s :: ss).
Qed.

Lemma carousel_items_tame self total E rest : forall i ids st,
  follows_protocol E ->
  Forall is_string ids ->
  tame (Forall is_string) (fst (carousel_items self total i rest ids E st)).
Proof.
  induction rest as [| u rest IH]; intros i ids st HE Hids; [exact Hids |].
  rewrite carousel_items_step. cbv zeta.
  pose proof (verdict_tame (item_failed i) _
                (answer_tame E (calls st) (carousel_item_request self u) HE)) as Hv.
  destruct (verdict _ _) as [v | f | e]; cbn in Hv |- *; auto.
  apply IH; [exact HE |]. apply Forall_app. auto.
Qed.

Lemma api_call_tame rq E st :
  follows_protocol E -> tame well_formed_body (fst (api_call rq E st)).
Proof. intros HE. rewrite api_call_run. now apply answer_tame. Qed.

Lemma container_stage_tame self paths caption E st :
  follows_protocol E ->
  paths <> [] ->
  tame well_formed_body (fst (container_stage self paths caption E st)).
Proof.
  intros HE Hne. unfold container_stage.
  destruct (1 <? length paths)%nat.
  - unfold bind at 1, print at 1. unfold bind at 1.
    match goal with
    | |- context [carousel_items _ _ _ _ _ E ?s] =>
        pose proof (carousel_items_tame self (length paths) E paths 1 [] s HE
                      (Forall_nil _)) as Hloop;
        destruct (carousel_items self (length paths) 1 paths [] E s)
          as [[ids | f | e] st1]
    end; cbn [fst tame] in Hloop |- *; auto.
    unfold bind at 1, print at 1. rewrite create_carousel_container_run.
    destruct (strs_strings ids Hloop) as [ss ->]. now apply api_call_tame.
  - destruct paths as [| u paths']; [contradiction |].
    unfold bind at 1, print at 1. unfold bind at 1, py_first, ret at 1.
    rewrite create_single_media_call. now apply api_call_tame.
Qed.

Lemma publish_stage_tame self j E st :
  follows_protocol E ->
  well_formed_body j ->
  tame (fun _ => True) (fst (publish_stage self j E st)).
Proof.
  intros HE (d & -> & _ & _).
  pose proof (publish_stage_trace self (JObj d) E st) as HB.
  destruct (publish_stage self (JObj d) E st) as [c st']. cbn [fst].
  cbn [check_id] in HB.
  destruct (dict_get "id" d) as [cid |]; destruct HB as [_ ->]; [| exact I].
  rewrite outcome_of_publish.
  pose proof (verdict_tame publish_failed _
                (answer_tame E (calls st) (publish_request self cid) HE)) as Hv.
  destruct (verdict _ _) as [v | f | e]; cbn in Hv |- *; auto.
Qed.

Lemma post_image_except_returns e E :
  tame_exn e -> exists v, fst (post_image_except e E fresh) = Return v.
Proof.
  intros [_ Hr]. unfold post_image_except, bind, try_except.
  destruct (exn_response e) as [r |]; [| now eexists].
  specialize (Hr r eq_refl). unfold response_json, well_formed_response in *.
  destruct (content r) as [j | why | why | ];
    [| now eexists | now eexists | contradiction].
  destruct Hr as (d & -> & _ & Herr).
  unfold py_in, ret at 1.
  destruct (dict_get "error" d) as [v |] eqn:Hd; [| now eexists].
  destruct (Herr v eq_refl) as [d' ->].
  unfold py_getitem. rewrite Hd. now eexists.
Qed.


Lemma numbering_follows_protocol : follows_protocol numbering.
Proof.
  intros log rq. cbn.
  eexists. split; [reflexivity |]. split; intros v Hv; cbn in Hv.
  - injection Hv as <-. now eexists.
  - discriminate.
Qed.


(** ** More on the [except] clause (lines 172-181) *)

Lemma except_no_response E e :
  exn_response e = None ->
  fst (post_image_except e E fresh) = Return (Failure (error_prefix ++ exn_str e)).
Proof.
  intros H. unfold post_image_except, bind. now rewrite H.
Qed.

Lemma except_fallback E text r :
  no_structured_message r ->
  fst (post_image_except (RequestException text (Some r)) E fresh)
    = Return (Failure (error_prefix ++ text)).
Proof.
  unfold post_image_except, bind, try_except, response_json. cbn [exn_response].
  intros [(why & Hc) | [(d & Hc & Hd) | (d & d' & Hc & Hd & Hm)]]; rewrite Hc.
  - reflexivity.
  - unfold ret at 1, py_in, ret at 1. now rewrite Hd.
  - unfold ret at 1, py_in, ret at 1. rewrite Hd.
    unfold py_getitem. rewrite Hd. unfold ret at 1, py_get. now rewrite Hm.
Qed.

Lemma except_attribute_error E text r d v :
  content r = Decodes (JObj d) ->
  dict_get "error" d = Some v ->
  ~ is_object v ->
  fst (post_image_except (RequestException text (Some r)) E fresh)
    = Raise AttributeError.
Proof.
  intros Hc Hd Hv.
  unfold post_image_except, bind, try_except, response_json. cbn [exn_response].
  rewrite Hc. unfold ret at 1, py_in, ret at 1. rewrite Hd.
  unfold py_getitem. rewrite Hd. unfold ret at 1.
  destruct v; try reflexivity. exfalso. apply Hv. now eexists.
Qed.

(** A call answered by an HTTP error status is the last call, and the [try]
    body ends with the [HTTPError] of [raise_for_status]. *)
Lemma http_error_stops self image_paths caption E L rq rest r :
  issued self image_paths caption E = (L ++ rq :: rest)%list ->
  server E L rq = Respond r ->
  is_http_error r = true ->
  rest = [] /\
  fst (post_image_try self image_paths caption E fresh)
    = Raise (RequestException (http_error_text r) (Some r)).
Proof.
  intros Hlog Hs Hst.
  assert (Ha : answer (server E L rq)
               = Raise (RequestException (http_error_text r) (Some r)))
    by (unfold answer; now rewrite Hs, Hst).
  destruct (stops_at_bad_answer _ _ _ _ _ _ _ Hlog) as [Hrest Htry].
  { rewrite Ha. apply raise_not_good. }
  split; [exact Hrest |]. rewrite Htry, Ha. reflexivity.
Qed.

(** When [requests.post] raises a request exception that carries no
    response (no connection, time-out), at whichever call of the run,
    [post_image] makes no further call and returns the failure record whose
    text is the fixed prefix followed by the text of the exception. *)
Theorem network_error_is_reported self image_paths caption E L rq rest text :
  issued self image_paths caption E = (L ++ rq :: rest)%list ->
  server E L rq = Fail text None ->
  ended self image_paths caption E
    = Next (Failure ("Instagram 포스팅 중 오류 발생: " ++ text)) /\
  rest = [].
Proof.
  intros Hlog Hs.
  assert (Ha : answer (server E L rq) = Raise (RequestException text None))
    by (unfold answer; now rewrite Hs).
  destruct (stops_at_bad_answer _ _ _ _ _ _ _ Hlog) as [Hrest Htry].
  { rewrite Ha. apply raise_not_good. }
  split; [| exact Hrest].
  rewrite ended_of_try, Htry, Ha. reflexivity.
Qed.

Lemma network_error_is_reported_witness :
  ended client (Lst photos) None unreachable
    = Next (Failure ("Instagram 포스팅 중 오류 발생: "
                     ++ "HTTPSConnectionPool(host='graph.facebook.com', port=443): Max retries exceeded")) /\
  @nil request = [].
Proof.
  apply (network_error_is_reported client (Lst photos) None unreachable []
           (carousel_item_request client "https://example.com/a.jpg") []);
    reflexivity.
Defined.

(** When a call is answered by an HTTP 4xx or 5xx status and the body gives
    no message to extract (it is not JSON, or it is an object without
    [error], or its [error] object has no [message]), [post_image] makes no
    further call and returns the failure record whose text is the fixed
    prefix followed by the text of the [HTTPError]. *)
Theorem http_error_falls_back_to_exception_text
    self image_paths caption E L rq rest r :
  issued self image_paths caption E = (L ++ rq :: rest)%list ->
  server E L rq = Respond r ->
  is_http_error r = true ->
  no_structured_message r ->
  ended self image_paths caption E
    = Next (Failure ("Instagram 포스팅 중 오류 발생: " ++ http_error_text r)) /\
  rest = [].
Proof.
  intros Hlog Hs Hst Hr.
  destruct (http_error_stops _ _ _ _ _ _ _ _ Hlog Hs Hst) as [Hrest Htry].
  split; [| exact Hrest].
  rewrite ended_of_try, Htry. cbn [is_RequestException].
  now rewrite (except_fallback E _ r Hr).
Qed.

Lemma http_error_falls_back_to_exception_text_witness :
  ended client (Str photo) None (always (Respond html_error))
    = Next (Failure ("Instagram 포스팅 중 오류 발생: " ++ http_error_text html_error)) /\
  @nil request = [].
Proof.
  apply (http_error_falls_back_to_exception_text client (Str photo) None
           (always (Respond html_error)) []
           (single_media_request client photo
              (formatted_date tuesday)) [] html_error).
  - reflexivity.
  - reflexivity.
  - reflexivity.
  - left. eexists. reflexivity.
Defined.

(** When a call is answered by an HTTP 4xx or 5xx status whose body is a
    JSON object with an [error] object that has a string [message],
    [post_image] makes no further call and returns the failure record whose
    text is the fixed prefix followed by that message. *)
Theorem http_error_message_is_extracted
    self image_paths caption E L rq rest r d d' m :
  issued self image_paths caption E = (L ++ rq :: rest)%list ->
  server E L rq = Respond r ->
  is_http_error r = true ->
  content r = Decodes (JObj d) ->
  dict_get "error" d = Some (JObj d') ->
  dict_get "message" d' = Some (JStr m) ->
  ended self image_paths caption E
    = Next (Failure ("Instagram 포스팅 중 오류 발생: " ++ m)) /\
  rest = [].
Proof.
  intros Hlog Hs Hst Hc Hd Hm.
  destruct (http_error_stops _ _ _ _ _ _ _ _ Hlog Hs Hst) as [Hrest Htry].
  split; [| exact Hrest].
  rewrite ended_of_try, Htry. cbn [is_RequestException].
  now rewrite (except_structured_message E _ r d d' m Hc Hd Hm).
Qed.

Lemma http_error_message_is_extracted_witness :
  ended client (Lst photos) (Some "three") (always (Respond invalid_url))
    = Next (Failure ("Instagram 포스팅 중 오류 발생: " ++ "Invalid URL")) /\
  @nil request = [].
Proof.
  apply (http_error_message_is_extracted client (Lst photos) (Some "three")
           (always (Respond invalid_url)) []
           (carousel_item_request client "https://example.com/a.jpg") []
           invalid_url
           [("error", JObj [("message", JStr "Invalid URL")])]
           [("message", JStr "Invalid URL")] "Invalid URL");
    reflexivity.
Defined.

(** When a call is answered by an HTTP 4xx or 5xx status whose body is a
    JSON object with an [error] member that is not an object (a string, a
    number, ...), the handler's [.get] raises and [post_image] ends with an
    [AttributeError] instead of a failure record. *)
Theorem http_error_with_flat_error_raises
    self image_paths caption E L rq rest r d v :
  issued self image_paths caption E = (L ++ rq :: rest)%list ->
  server E L rq = Respond r ->
  is_http_error r = true ->
  content r = Decodes (JObj d) ->
  dict_get "error" d = Some v ->
  ~ is_object v ->
  ended self image_paths caption E = Raise AttributeError /\
  rest = [].
Proof.
  intros Hlog Hs Hst Hc Hd Hv.
  destruct (http_error_stops _ _ _ _ _ _ _ _ Hlog Hs Hst) as [Hrest Htry].
  split; [| exact Hrest].
  rewrite ended_of_try, Htry. cbn [is_RequestException].
  now rewrite (except_attribute_error E _ r d v Hc Hd Hv).
Qed.

Lemma http_error_with_flat_error_raises_witness :
  ended client (Lst photos) None (always bad_gateway) = Raise AttributeError /\
  @nil request = [].
Proof.
  apply (http_error_with_flat_error_raises client (Lst photos) None
           (always bad_gateway) []
           (carousel_item_request client "https://example.com/a.jpg") []
           {| status_code := 502;
              http_error_text := "502 Server Error: Bad Gateway for url: https://graph.facebook.com/v18.0/17841400000000000/media";
              content := Decodes (JObj [("error", JStr "Bad Gateway")]) |}
           [("error", JStr "Bad Gateway")] (JStr "Bad Gateway")).
  - reflexivity.
  - reflexivity.
  - reflexivity.
  - reflexivity.
  - reflexivity.
  - intros [d Hd]. discriminate.
Defined.

(** ** Every run is one of the five *)

Lemma container_stage_run self paths caption E st :
  calls st = [] ->
  match container_stage self paths caption E st with
  | (Next j, st') =>
      exists pre cc,
        creation self E paths caption pre cc /\
        calls st' = (pre ++ [cc])%list /\
        answer (server E pre cc) = Next j
  | (Return f, st') => run_of self E paths caption (Return f) (calls st')
  | (Raise e, st') => run_of self E paths caption (Raise e) (calls st')
  end.
Proof.
  intros Hst. unfold container_stage.
  destruct (1 <? length paths)%nat eqn:Hlen.
  - apply Nat.ltb_lt in Hlen. unfold bind at 1, print at 1. unfold bind at 1.
    match goal with
    | |- context [carousel_items _ _ _ _ _ E ?s] =>
        destruct (carousel_items_trace self (length paths) paths 1 [] E s)
          as (p & Hp & Hgood & Hend);
        destruct (carousel_items self (length paths) 1 paths [] E s)
          as [[ids | f | e] st1];
        cbn [calls] in Hgood, Hend; rewrite Hst in Hgood, Hend;
        cbn [app] in Hend
    end.
    + destruct Hend as [-> Hlog]. rewrite firstn_all in Hgood, Hlog.
      unfold bind at 1, print at 1. rewrite create_carousel_container_run.
      destruct (strs ids) as [ss |].
      * rewrite api_call_run. cbn [calls push]. rewrite Hlog.
        set (cc := carousel_container_request self (String.concat "," ss) caption).
        assert (Hcr : creation self E paths caption (item_calls self paths) cc)
          by now constructor.
        destruct (answer _) as [j | f | e] eqn:Ha.
        -- now exists (item_calls self paths), cc.
        -- apply run_container_stop; [exact Hcr |]. now rewrite Ha.
        -- apply run_container_stop; [exact Hcr |]. now rewrite Ha.
      * cbn [calls]. rewrite Hlog. now apply run_join_error.
    + destruct Hend as (u & Hn & -> & Hf).
      apply run_item_stop; auto. change (1 + p) with (S p) in Hf. now rewrite Hf.
    + destruct Hend as (u & Hn & -> & Hf).
      apply run_item_stop; auto. change (1 + p) with (S p) in Hf. now rewrite Hf.
  - apply Nat.ltb_ge in Hlen. unfold bind at 1, print at 1. unfold bind at 1.
    destruct paths as [| u paths']; unfold py_first.
    + unfold raise. cbn [calls]. rewrite Hst. now apply run_no_image.
    + assert (paths' = []) as -> by (destruct paths'; [reflexivity | cbn in Hlen; lia]).
      unfold ret at 1. rewrite create_single_media_call, api_call_run.
      cbn [calls push]. rewrite Hst. cbn [app].
      set (cc := single_media_request self u caption).
      assert (Hcr : creation self E [u] caption [] cc) by now constructor.
      destruct (answer _) as [j | f | e] eqn:Ha.
      * now exists [], cc.
      * apply (run_container_stop _ _ _ _ [] cc); [exact Hcr |]. now rewrite Ha.
      * apply (run_container_stop _ _ _ _ [] cc); [exact Hcr |]. now rewrite Ha.
Qed.

Lemma post_image_try_run self image_paths caption E :
  run_of self E (paths_of image_paths) (caption_sent E caption)
    (fst (post_image_try self image_paths caption E fresh))
    (calls (snd (post_image_try self image_paths caption E fresh))).
Proof.
  rewrite post_image_try_stages. unfold bind.
  pose proof (container_stage_run self (paths_of image_paths)
                (caption_sent E caption) E fresh eq_refl) as HA.
  destruct (container_stage _ _ _ E fresh) as [[j | f | e] st1];
    [| exact HA | exact HA].
  destruct HA as (pre & cc & Hcr & Hlog & Ha).
  pose proof (publish_stage_trace self j E st1) as HB.
  destruct (publish_stage self j E st1) as [c st2]. cbn [fst snd].
  destruct (check_id container_failed j) as [cid | f | e] eqn:Hcheck;
    destruct HB as [-> ->]; rewrite Hlog.
  - rewrite <- app_assoc. cbn [app]. apply run_published; [exact Hcr |].
    rewrite Ha. now apply (verdict_next container_failed (Next j)).
  - apply run_container_stop; [exact Hcr |]. rewrite Ha. cbn. now rewrite Hcheck.
  - apply run_container_stop; [exact Hcr |]. rewrite Ha. cbn. now rewrite Hcheck.
Qed.

(** ** The caption, for every input *)

(** A carousel whose item calls are all answered with string ids makes the
    carousel-container call, with the joined ids and the caption. *)
Lemma carousel_container_is_called self urls caption E ids :
  1 < length urls ->
  length ids = length urls ->
  (forall k u, nth_error urls k = Some u ->
     exists d,
       replies E (item_calls self (firstn k urls))
         (carousel_item_request self u) (JObj d) /\
       dict_get "id" d = Some (JStr (nth k ids ""))) ->
  exists rest,
    issued self (Lst urls) caption E =
      (item_calls self urls
       ++ carousel_container_request self (String.concat "," ids)
            (caption_sent E caption) :: rest)%list /\
    (rest = [] \/ exists cid, rest = [publish_request self cid]).
Proof.
  intros Hlen Hids Hall. unfold issued.
  rewrite post_image_calls, post_image_try_stages.
  unfold bind at 1. unfold container_stage. cbn [paths_of].
  rewrite (proj2 (Nat.ltb_lt _ _) Hlen).
  unfold bind at 1, print at 1. unfold bind at 1.
  match goal with
  | |- context [carousel_items _ _ _ _ _ E ?s0] =>
      destruct (carousel_items_all_good self (length urls) urls 1 [] E s0 ids Hids)
        as (st1 & Hrun & Hcalls); [exact Hall |]
  end.
  rewrite Hrun. cbn [calls fresh app] in Hcalls.
  unfold bind at 1, print at 1. rewrite create_carousel_container_run.
  cbn [app]. rewrite strs_map_JStr, api_call_run. cbn [calls push]. rewrite Hcalls.
  set (cc := carousel_container_request self _ _).
  destruct (answer _) as [j | f | e].
  - match goal with
    | |- context [publish_stage self j E ?s2] =>
        pose proof (publish_stage_trace self j E s2) as HB;
        destruct (publish_stage self j E s2) as [c st3]
    end.
    cbn [calls push] in HB. cbn [snd].
    destruct (check_id container_failed j) as [cid | f | e];
      destruct HB as [-> _].
    + exists [publish_request self cid]. rewrite <- app_assoc. split; eauto.
    + exists []. auto.
    + exists []. auto.
  - exists []. auto.
  - exists []. auto.
Qed.

(** C5.  The caption of every call that carries one is the caption given,
    and the empty string is a caption like any other; it is the generated
    date text exactly when the argument is [None].  Every run that gets as
    far as creating the container does send it: the first call of a
    single-URL run is the single-media call with this caption; a run on
    more than one URL whose item calls are answered with string ids makes
    the carousel-container call with this caption; and a run on more than
    one URL that makes no such call has ended in the item stage, at an item
    call that was not answered with an object that has an [id], or with the
    [TypeError] of joining ids that are not all strings. *)
Theorem caption_passed_verbatim self image_paths caption E :
  (forall c, caption = Some c ->
     Forall (caption_ok c) (issued self image_paths caption E)) /\
  (caption = None ->
     exists c, fst (_get_formatted_date self E fresh) = Next c /\
               Forall (caption_ok c) (issued self image_paths caption E)) /\
  (forall u, paths_of image_paths = [u] ->
     exists rest,
       issued self image_paths caption E =
         single_media_request self u
           (match caption with
            | Some c => c
            | None => formatted_date (clock E)
            end) :: rest) /\
  (forall urls ids,
     image_paths = Lst urls ->
     1 < length urls ->
     length ids = length urls ->
     (forall k u, nth_error urls k = Some u ->
        exists d,
          replies E (item_calls self (firstn k urls))
            (carousel_item_request self u) (JObj d) /\
          dict_get "id" d = Some (JStr (nth k ids ""))) ->
     exists rest,
       issued self image_paths caption E =
         (item_calls self urls
          ++ carousel_container_request self (String.concat "," ids)
               (match caption with
                | Some c => c
                | None => formatted_date (clock E)
                end) :: rest)%list) /\
  (1 < length (paths_of image_paths) ->
     (exists children rest,
        issued self image_paths caption E =
          (item_calls self (paths_of image_paths)
           ++ carousel_container_request self children
                (match caption with
                 | Some c => c
                 | None => formatted_date (clock E)
                 end) :: rest)%list) \/
     (ended self image_paths caption E = Raise TypeError /\
      issued self image_paths caption E = item_calls self (paths_of image_paths)) \/
     (exists k u,
        nth_error (paths_of image_paths) k = Some u /\
        issued self image_paths caption E =
          (item_calls self (firstn k (paths_of image_paths))
           ++ [carousel_item_request self u])%list /\
        ~ (exists d v,
             replies E (item_calls self (firstn k (paths_of image_paths)))
               (carousel_item_request self u) (JObj d) /\
             dict_get "id" d = Some v))).
Proof.
  destruct (post_image_try_trace self image_paths caption E)
    as (_ & _ & Hcap & _ & _).
  split; [| split; [| split; [| split]]].
  - unfold issued. rewrite post_image_calls. intros c ->. exact Hcap.
  - unfold issued. rewrite post_image_calls.
    intros ->. exists (formatted_date (clock E)). split; [reflexivity | exact Hcap].
  - unfold issued. rewrite post_image_calls.
    intros u Hu. rewrite post_image_try_stages. unfold bind at 1.
    unfold container_stage. rewrite Hu.
    change (1 <? length [u])%nat with false. cbv iota.
    unfold bind at 1, print at 1. unfold bind at 1, py_first, ret at 1.
    rewrite create_single_media_call, api_call_run. cbn [calls push fresh app].
    fold (caption_sent E caption).
    destruct (answer _) as [j | f | e]; [| now exists [] ..].
    match goal with
    | |- context [publish_stage self j E ?s] =>
        pose proof (publish_stage_trace self j E s) as HB;
        destruct (publish_stage self j E s) as [c st']
    end.
    cbn [calls push] in HB. cbn [snd].
    destruct (check_id container_failed j) as [cid | f | e]; destruct HB as [-> _].
    + now exists [publish_request self cid].
    + now exists [].
    + now exists [].
  - intros urls ids -> Hlen Hids Hall.
    destruct (carousel_container_is_called self urls caption E ids Hlen Hids Hall)
      as (rest & Hlog & _).
    exists rest. exact Hlog.
  - intros Hlen. fold (caption_sent E caption).
    pose proof (ended_of_try self image_paths caption E) as Hend.
    unfold issued. rewrite post_image_calls.
    destruct (post_image_try_run self image_paths caption E)
      as [Hp | k u c' _ Hu _ Hstop | _ _ | pre cc c' Hcr _ | pre cc cid Hcr _].
    + rewrite Hp in Hlen. cbn in Hlen. lia.
    + right. right. exists k, u. repeat split; auto.
      intros (d & v & Hr & Hd). rewrite (replies_answer _ _ _ _ Hr) in Hstop.
      cbn in Hstop. now rewrite Hd in Hstop.
    + right. left. split; [exact Hend | reflexivity].
    + left. destruct Hcr as [u Hu | children _ _].
      * rewrite Hu in Hlen. cbn in Hlen. lia.
      * now exists children, [].
    + left. destruct Hcr as [u Hu | children _ _].
      * rewrite Hu in Hlen. cbn in Hlen. lia.
      * now exists children, [publish_request self cid].
Qed.

Lemma caption_passed_verbatim_witness :
  Forall (caption_ok "") (issued client (Lst photos) (Some "") numbering) /\
  (exists c, fst (_get_formatted_date client numbering fresh) = Next c /\
             Forall (caption_ok c) (issued client (Str photo) None numbering)) /\
  (exists rest,
     issued client (Str photo) (Some "") numbering =
       single_media_request client photo "" :: rest) /\
  (exists rest,
     issued client (Lst photos) (Some "") numbering =
       (item_calls client photos
        ++ carousel_container_request client "1,2,3" "" :: rest)%list) /\
  ((exists children rest,
      issued client (Lst photos) (Some "") second_item_empty =
        (item_calls client photos
         ++ carousel_container_request client children "" :: rest)%list) \/
   (ended client (Lst photos) (Some "") second_item_empty = Raise TypeError /\
    issued client (Lst photos) (Some "") second_item_empty
      = item_calls client photos) \/
   (exists k u,
      nth_error photos k = Some u /\
      issued client (Lst photos) (Some "") second_item_empty =
        (item_calls client (firstn k photos)
         ++ [carousel_item_request client u])%list /\
      ~ (exists d v,
           replies second_item_empty (item_calls client (firstn k photos))
             (carousel_item_request client u) (JObj d) /\
           dict_get "id" d = Some v))).
Proof.
  split; [| split; [| split; [| split]]].
  - apply (proj1 (caption_passed_verbatim client (Lst photos) (Some "") numbering)
             "" eq_refl).
  - apply (proj1 (proj2 (caption_passed_verbatim client (Str photo) None numbering))
             eq_refl).
  - apply (proj1 (proj2 (proj2
             (caption_passed_verbatim client (Str photo) (Some "") numbering)))
             photo eq_refl).
  - apply (proj1 (proj2 (proj2 (proj2
             (caption_passed_verbatim client (Lst photos) (Some "") numbering))))
             photos ["1"; "2"; "3"] eq_refl).
    + cbn. lia.
    + reflexivity.
    + intros k u Hk.
      do 3 (destruct k as [| k];
            [injection Hk as <-;
             eexists; split; [eexists; repeat split |]; reflexivity |]).
      destruct k; discriminate.
  - apply (proj2 (proj2 (proj2 (proj2
             (caption_passed_verbatim client (Lst photos) (Some "")
                second_item_empty))))).
    cbn. lia.
Defined.


Lemma answer_next_replies E L rq j :
  answer (server E L rq) = Next j -> replies E L rq j.
Proof.
  unfold answer, replies. destruct (server E L rq) as [r | text resp]; [| discriminate].
  destruct (is_http_error r) eqn:Hst; [discriminate |].
  destruct (content r) as [j' | why | why | ] eqn:Hc; [| discriminate ..].
  intros H. injection H as <-. now exists r.
Qed.

Lemma id_of_replies E L rq v :
  id_of (answer (server E L rq)) = Some v ->
  exists d, replies E L rq (JObj d) /\ dict_get "id" d = Some v.
Proof.
  destruct (answer (server E L rq)) as [j | f | e] eqn:Ha; try discriminate.
  destruct j as [ | b | n | s | l | d]; try discriminate.
  cbn. intros Hd. exists d. split; [now apply answer_next_replies | exact Hd].
Qed.

Lemma answer_not_return o f : answer o <> Return f.
Proof.
  unfold answer. destruct o as [r | text resp]; [| discriminate].
  destruct (is_http_error r); [discriminate |].
  destruct (content r); discriminate.
Qed.

(** A step that stops the run stops it with a failure record or an
    exception. *)
Lemma stopped_outcome fail o c :
  stopped (verdict fail (answer o)) c ->
  c = Return (Failure fail) \/ exists e, c = Raise e.
Proof.
  destruct (answer o) as [j | f | e] eqn:Ha; cbn.
  - destruct j as [ | b | n | s | l | d]; cbn;
      repeat match goal with
        | |- context [if ?b then _ else _] => destruct b
        | |- context [match dict_get ?k ?d with _ => _ end] => destruct (dict_get k d)
        end; cbn; intros H; try contradiction; subst; eauto.
  - now apply answer_not_return in Ha.
  - intros ->. eauto.
Qed.

Lemma except_outcome e E :
  (exists m, fst (post_image_except e E fresh) = Return (Failure (error_prefix ++ m)))
  \/ (exists e', fst (post_image_except e E fresh) = Raise e').
Proof.
  unfold post_image_except, bind, try_except, return_, ret.
  destruct (exn_response e) as [r |]; [| left; now eexists].
  unfold response_json.
  destruct (content r) as [j | why | why | ];
    [| left; now eexists | left; now eexists | right; now eexists].
  unfold py_in, ret, raise.
  destruct j as [ | b | n | s | l | d]; cbn; try (right; now eexists).
  - destruct (is_substring "error" s); [right | left]; now eexists.
  - destruct (existsb (is_str "error") l); [right | left]; now eexists.
  - destruct (dict_get "error" d) as [err |]; [| left; now eexists].
    destruct err; try (right; now eexists). left. now eexists.
Qed.

(** What [post_image] makes of the end of the [try] body. *)
Lemma ended_cases self image_paths caption E :
  match fst (post_image_try self image_paths caption E fresh) with
  | Next v | Return v => ended self image_paths caption E = Next v
  | Raise e =>
      (is_RequestException e = false /\
       ended self image_paths caption E = Raise e) \/
      (is_RequestException e = true /\
       ((exists m, ended self image_paths caption E
                   = Next (Failure (error_prefix ++ m))) \/
        (exists e', ended self image_paths caption E = Raise e')))
  end.
Proof.
  rewrite ended_of_try.
  destruct (fst (post_image_try _ _ _ _ _)) as [v | v | e]; try reflexivity.
  destruct (is_RequestException e); [right | left; auto].
  split; [reflexivity |].
  destruct (except_outcome e E) as [[m ->] | [e' ->]]; eauto.
Qed.

Lemma creation_creates self E paths caption pre cc :
  creation self E paths caption pre cc -> creates_container self cc.
Proof. intros [u _ | children _ _]; [left | right]; eauto. Qed.

Lemma creation_not_publish self E paths caption pre cc :
  creation self E paths caption pre cc -> Forall not_publish (pre ++ [cc]).
Proof.
  intros [u _ | children _ _]; apply Forall_app; split;
    auto using not_publish_items; now repeat constructor.
Qed.

Lemma creation_length self E paths caption pre cc :
  creation self E paths caption pre cc ->
  length pre <= length paths /\ (length paths <= 1 -> pre = []).
Proof.
  intros [u -> | children Hlen _]; cbn; [auto |].
  rewrite length_map. split; lia.
Qed.

Lemma expected_items self paths caption k :
  1 < length paths ->
  Forall (expected_call self paths caption) (item_calls self (firstn k paths)).
Proof.
  intros Hlen. apply Forall_forall. intros rq Hin. apply in_map_iff in Hin.
  destruct Hin as (u & <- & Hu). left. split; [exact Hlen |].
  exists u. split; [| reflexivity].
  rewrite <- (firstn_skipn k paths). apply in_or_app. now left.
Qed.

Lemma creation_expected self E paths caption pre cc :
  creation self E paths caption pre cc ->
  Forall (expected_call self paths caption) (pre ++ [cc]).
Proof.
  intros [u Hu | children Hlen _]; apply Forall_app; split.
  - constructor.
  - constructor; [| constructor]. right. right. left. now exists u.
  - rewrite <- (firstn_all paths) at 2. now apply expected_items.
  - constructor; [| constructor]. right. left.
    split; [exact Hlen | now exists children].
Qed.

Lemma run_of_expected self E paths caption c log :
  run_of self E paths caption c log ->
  Forall (expected_call self paths caption) log.
Proof.
  intros [Hp | k u c' Hlen Hu _ _ | Hlen _ | pre cc c' Hcr _ | pre cc cid Hcr _].
  - constructor.
  - apply Forall_app. split; [now apply expected_items |].
    constructor; [| constructor]. left. split; [exact Hlen |]. exists u.
    split; [now apply nth_error_In with k | reflexivity].
  - rewrite <- (firstn_all paths) at 2. now apply expected_items.
  - now apply creation_expected with E.
  - change [cc; publish_request self cid]
      with ([cc] ++ [publish_request self cid])%list.
    rewrite app_assoc. apply Forall_app. split.
    + now apply creation_expected with E.
    + constructor; [| constructor]. right. right. right. now exists cid.
Qed.

Lemma issued_expected self image_paths caption E :
  Forall (expected_call self (paths_of image_paths) (caption_sent E caption))
    (issued self image_paths caption E).
Proof.
  unfold issued. rewrite post_image_calls.
  apply run_of_expected with E (fst (post_image_try self image_paths caption E fresh)).
  apply post_image_try_run.
Qed.

(** ** What every run does and does not do *)

(** Every call of a run goes to the [media] or the [media_publish] endpoint
    of the client's account and carries the client's access token. *)
Theorem calls_are_authenticated self image_paths caption E :
  Forall (authenticated self) (issued self image_paths caption E).
Proof.
  eapply Forall_impl; [| apply issued_expected].
  intros rq [(_ & u & _ & ->) | [(_ & ch & ->) | [(u & _ & ->) | (cid & ->)]]];
    split; cbn; auto.
Qed.

(** The image URLs a run sends are URLs it was given: every [image_url]
    parameter of a call is one of the paths of the argument. *)
Theorem only_given_urls_are_sent self image_paths caption E :
  Forall (fun rq =>
            forall v, dict_get "image_url" (params rq) = Some v ->
              exists u, In u (paths_of image_paths) /\ v = JStr u)
    (issued self image_paths caption E).
Proof.
  eapply Forall_impl; [| apply issued_expected].
  intros rq [(_ & u & Hu & ->) | [(_ & ch & ->) | [(u & Hu & ->) | (cid & ->)]]] v Hv;
    cbn in Hv; try discriminate; injection Hv as <-; exists u;
    (split; [| reflexivity]); [exact Hu | rewrite Hu; now left].
Qed.

(** The two branches do not mix: a run on more than one URL makes no
    single-media call, and a run on at most one URL makes neither an item
    call nor a carousel-container call. *)
Theorem branches_do_not_mix self image_paths caption E :
  (1 < length (paths_of image_paths) ->
   forall u c, ~ In (single_media_request self u c)
                    (issued self image_paths caption E)) /\
  (length (paths_of image_paths) <= 1 ->
   forall u children c,
     ~ In (carousel_item_request self u) (issued self image_paths caption E) /\
     ~ In (carousel_container_request self children c)
          (issued self image_paths caption E)).
Proof.
  pose proof (issued_expected self image_paths caption E) as H.
  rewrite Forall_forall in H. split.
  - intros Hlen u c Hin.
    destruct (H _ Hin) as [(_ & u' & _ & Heq) | [(_ & ch & Heq) |
                          [(u' & Hu & _) | (cid & Heq)]]];
      try discriminate.
    rewrite Hu in Hlen. cbn in Hlen. lia.
  - intros Hlen u children c. split; intros Hin;
      destruct (H _ Hin) as [(Hlt & _) | [(Hlt & _) |
                            [(u' & _ & Heq) | (cid & Heq)]]];
      try discriminate; lia.
Qed.

Lemma branches_do_not_mix_witness :
  (forall u c, ~ In (single_media_request client u c)
                    (issued client (Lst photos) None numbering)) /\
  (forall u children c,
     ~ In (carousel_item_request client u) (issued client (Str photo) None numbering) /\
     ~ In (carousel_container_request client children c)
          (issued client (Str photo) None numbering)).
Proof.
  split.
  - apply (proj1 (branches_do_not_mix client (Lst photos) None numbering)).
    cbn. lia.
  - apply (proj2 (branches_do_not_mix client (Str photo) None numbering)).
    cbn. lia.
Defined.

(** A run makes at most two calls beyond one item call per URL, and at most
    two calls in all when it is given at most one URL: no call is retried. *)
Theorem call_budget self image_paths caption E :
  length (issued self image_paths caption E) <= length (paths_of image_paths) + 2 /\
  (length (paths_of image_paths) <= 1 ->
   length (issued self image_paths caption E) <= 2).
Proof.
  unfold issued. rewrite post_image_calls.
  destruct (post_image_try_run self image_paths caption E)
    as [Hp | k u c' Hlen Hu _ _ | Hlen _ | pre cc c' Hcr _ | pre cc cid Hcr _].
  - cbn. split; lia.
  - assert (k < length (paths_of image_paths))
      by (apply nth_error_Some; congruence).
    rewrite length_app, length_map, length_firstn. cbn. split; lia.
  - rewrite length_map. split; lia.
  - destruct (creation_length _ _ _ _ _ _ Hcr) as [Hle Hnil].
    rewrite length_app. cbn. split; [lia |]. intros H1. rewrite (Hnil H1). cbn. lia.
  - destruct (creation_length _ _ _ _ _ _ Hcr) as [Hle Hnil].
    rewrite length_app. cbn. split; [lia |]. intros H1. rewrite (Hnil H1). cbn. lia.
Qed.

Lemma call_budget_witness :
  length (issued client (Str photo) None numbering) <= 2.
Proof.
  apply (proj2 (call_budget client (Str photo) None numbering)). cbn. lia.
Defined.

Lemma publish_request_inj self cid cid' :
  publish_request self cid = publish_request self cid' -> cid = cid'.
Proof. intros H. now injection H. Qed.

Lemma no_publish_inside log L cid rest self :
  Forall not_publish log ->
  log <> (L ++ publish_request self cid :: rest)%list.
Proof.
  intros Hnp ->. apply Forall_app in Hnp. destruct Hnp as [_ Hnp].
  inversion Hnp as [| ? ? Hp _]. discriminate.
Qed.

Lemma publish_is_last pre pub L cid rest self :
  Forall not_publish pre ->
  (pre ++ [pub])%list = (L ++ publish_request self cid :: rest)%list ->
  L = pre /\ pub = publish_request self cid /\ rest = [].
Proof.
  intros Hnp Heq.
  destruct rest as [| y rest'] using rev_ind.
  - apply app_inj_tail in Heq. destruct Heq as [-> ->]. auto.
  - exfalso. clear IHrest'.
    change (L ++ publish_request self cid :: rest' ++ [y])%list
      with (L ++ (publish_request self cid :: rest') ++ [y])%list in Heq.
    rewrite app_assoc in Heq. apply app_inj_tail in Heq. destruct Heq as [-> _].
    now apply (no_publish_inside _ L cid rest' self Hnp).
Qed.

(** The publish call, when a run makes it, is the last call, comes right
    after the container-creation call, and carries as [creation_id] the
    [id] of the answer to that call. *)
Theorem publish_follows_container self image_paths caption E L cid rest :
  issued self image_paths caption E = (L ++ publish_request self cid :: rest)%list ->
  rest = [] /\
  exists pre cc d,
    L = (pre ++ [cc])%list /\
    creates_container self cc /\
    replies E pre cc (JObj d) /\
    dict_get "id" d = Some cid.
Proof.
  unfold issued. rewrite post_image_calls. intros Hlog.
  destruct (post_image_try_run self image_paths caption E)
    as [Hp | k u c' Hlen Hu _ _ | Hlen _ | pre cc c' Hcr _ | pre cc cid' Hcr Hid].
  - now destruct L.
  - exfalso. revert Hlog. apply no_publish_inside.
    apply Forall_app. split; [apply not_publish_items | now repeat constructor].
  - exfalso. revert Hlog. apply no_publish_inside, not_publish_items.
  - exfalso. revert Hlog. apply no_publish_inside.
    eapply creation_not_publish; exact Hcr.
  - change [cc; publish_request self cid']
      with ([cc] ++ [publish_request self cid'])%list in Hlog.
    rewrite app_assoc in Hlog. apply publish_is_last in Hlog.
    2: eapply creation_not_publish; exact Hcr.
    destruct Hlog as (-> & Hpub & ->). apply publish_request_inj in Hpub. subst cid'.
    split; [reflexivity |].
    destruct (id_of_replies _ _ _ _ Hid) as (d & Hr & Hd).
    exists pre, cc, d. repeat split; auto.
    eapply creation_creates; exact Hcr.
Qed.

Lemma publish_follows_container_witness :
  @nil request = [] /\
  exists pre cc d,
    ([single_media_request client photo "hi"] = pre ++ [cc])%list /\
    creates_container client cc /\
    replies numbering pre cc (JObj d) /\
    dict_get "id" d = Some (JStr "1").
Proof.
  apply (publish_follows_container client (Str photo) (Some "hi") numbering
           [single_media_request client photo "hi"] (JStr "1") []).
  reflexivity.
Defined.

(** [post_image] returns a success record only when the run ended with the
    publish call, made right after the container-creation call, and the
    publish call was answered with an object whose [id] is the [post_id] of
    the record; the status text is the fixed one. *)
Theorem success_means_published self image_paths caption E pid status :
  ended self image_paths caption E = Next (Success pid status) ->
  status = uploaded /\
  exists pre cc cid d,
    issued self image_paths caption E
      = (pre ++ [cc; publish_request self cid])%list /\
    creates_container self cc /\
    replies E (pre ++ [cc]) (publish_request self cid) (JObj d) /\
    dict_get "id" d = Some pid.
Proof.
  intros Hend. pose proof (ended_cases self image_paths caption E) as Hcases.
  unfold issued. rewrite post_image_calls.
  destruct (post_image_try_run self image_paths caption E)
    as [Hp | k u c' Hlen Hu _ Hstop | Hlen _ | pre cc c' Hcr Hstop
        | pre cc cid Hcr Hid].
  - cbn in Hcases. destruct Hcases as [[_ H] | [H _]]; congruence.
  - apply stopped_outcome in Hstop. destruct Hstop as [-> | [e ->]]; cbn in Hcases.
    + congruence.
    + destruct Hcases as [[_ H] | [_ [[m H] | [e' H]]]]; congruence.
  - cbn in Hcases. destruct Hcases as [[_ H] | [H _]]; congruence.
  - apply stopped_outcome in Hstop. destruct Hstop as [-> | [e ->]]; cbn in Hcases.
    + congruence.
    + destruct Hcases as [[_ H] | [_ [[m H] | [e' H]]]]; congruence.
  - rewrite outcome_of_publish in Hcases.
    destruct (verdict publish_failed _) as [v | f | e] eqn:Hv.
    + cbn in Hcases. rewrite Hcases in Hend. injection Hend as <- <-.
      split; [reflexivity |].
      apply (verdict_next publish_failed) in Hv.
      destruct (id_of_replies _ _ _ _ Hv) as (d & Hr & Hd).
      exists pre, cc, cid, d. repeat split; auto.
      eapply creation_creates; exact Hcr.
    + pose proof (stopped_outcome publish_failed
                    (server E (pre ++ [cc]) (publish_request self cid))
                    (Return f)) as Hs.
      rewrite Hv in Hs. destruct (Hs eq_refl) as [Hf | [e Hf]]; [| discriminate].
      cbn in Hcases. congruence.
    + cbn in Hcases.
      destruct Hcases as [[_ H] | [_ [[m H] | [e' H]]]]; congruence.
Qed.

Lemma success_means_published_witness :
  uploaded = uploaded /\
  exists pre cc cid d,
    issued client (Lst photos) (Some "three") numbering
      = (pre ++ [cc; publish_request client cid])%list /\
    creates_container client cc /\
    replies numbering (pre ++ [cc]) (publish_request client cid) (JObj d) /\
    dict_get "id" d = Some (JStr "5").
Proof.
  apply (success_means_published client (Lst photos) (Some "three") numbering
           (JStr "5") uploaded).
  reflexivity.
Defined.

Lemma only_given_urls_are_sent_witness :
  exists u, In u photos /\ JStr "https://example.com/b.jpg" = JStr u.
Proof.
  pose proof (only_given_urls_are_sent client (Lst photos) None numbering) as H.
  rewrite Forall_forall in H.
  apply (H (carousel_item_request client "https://example.com/b.jpg")).
  - cbn. auto.
  - reflexivity.
Defined.

(** ** The carousel path to the end *)

(** The loop, when every item call is answered with an object that has an
    [id]: it collects these ids, of whatever JSON type, in order. *)
Lemma carousel_items_collects self total rest : forall i acc E st vs,
  length vs = length rest ->
  (forall k u, nth_error rest k = Some u ->
     exists d,
       replies E (calls st ++ item_calls self (firstn k rest))
         (carousel_item_request self u) (JObj d) /\
       dict_get "id" d = Some (nth k vs JNull)) ->
  exists st',
    carousel_items self total i rest acc E st = (Next (acc ++ vs)%list, st') /\
    calls st' = (calls st ++ item_calls self rest)%list.
Proof.
  induction rest as [| u rest IH]; intros i acc E st vs Hlen Hall.
  - destruct vs; [| discriminate]. exists st. cbn. now rewrite !app_nil_r.
  - destruct vs as [| v vs]; [discriminate |].
    rewrite carousel_items_step. cbv zeta.
    destruct (Hall 0 u eq_refl) as (d & Hr & Hd).
    cbn [firstn map nth] in Hr, Hd. rewrite app_nil_r in Hr.
    rewrite (replies_answer _ _ _ _ Hr). cbn [verdict check_id]. rewrite Hd.
    match goal with
    | |- context [carousel_items _ _ _ _ _ E ?s1] =>
        destruct (IH (S i) (acc ++ [v])%list E s1 vs) as (st' & Hrun & Hcalls)
    end.
    + cbn in Hlen. lia.
    + intros k u' Hk. destruct (Hall (S k) u' Hk) as (d' & Hr' & Hd').
      exists d'. split; [| exact Hd'].
      cbn [calls push say]. rewrite <- app_assoc. exact Hr'.
    + exists st'. rewrite Hrun, Hcalls. cbn [calls push say map].
      now rewrite <- !app_assoc.
Qed.

(** For a list of more than one URL, when the item calls are answered with
    string ids, the carousel-container call with an [id] and the publish
    call with an [id]: the run is the item calls in order, the container
    call with the joined ids, the publish call with the container's id, and
    [post_image] returns the success record with the id of the publish
    answer. *)
Theorem carousel_published self urls caption E ids d1 cid d2 pid :
  1 < length urls ->
  length ids = length urls ->
  (forall k u, nth_error urls k = Some u ->
     exists d,
       replies E (item_calls self (firstn k urls))
         (carousel_item_request self u) (JObj d) /\
       dict_get "id" d = Some (JStr (nth k ids ""))) ->
  replies E (item_calls self urls)
    (carousel_container_request self (String.concat "," ids) (caption_sent E caption))
    (JObj d1) ->
  dict_get "id" d1 = Some cid ->
  replies E
    (item_calls self urls
     ++ [carousel_container_request self (String.concat "," ids)
           (caption_sent E caption)])
    (publish_request self cid) (JObj d2) ->
  dict_get "id" d2 = Some pid ->
  ended self (Lst urls) caption E = Next (Success pid uploaded) /\
  issued self (Lst urls) caption E =
    (item_calls self urls
     ++ [carousel_container_request self (String.concat "," ids)
           (caption_sent E caption);
         publish_request self cid])%list.
Proof.
  intros Hlen Hids Hall H1 Hd1 H2 Hd2.
  assert (Hrun : exists st',
             post_image_try self (Lst urls) caption E fresh
               = (Return (Success pid uploaded), st') /\
             calls st' =
               (item_calls self urls
                ++ [carousel_container_request self (String.concat "," ids)
                      (caption_sent E caption);
                    publish_request self cid])%list).
  { rewrite post_image_try_stages. unfold bind at 1.
    unfold container_stage. cbn [paths_of].
    rewrite (proj2 (Nat.ltb_lt _ _) Hlen).
    unfold bind at 1, print at 1. unfold bind at 1.
    match goal with
    | |- context [carousel_items _ _ _ _ _ E ?s0] =>
        destruct (carousel_items_all_good self (length urls) urls 1 [] E s0 ids Hids)
          as (st1 & Hloop & Hcalls); [exact Hall |]
    end.
    rewrite Hloop. cbn [calls fresh app] in Hcalls.
    unfold bind at 1, print at 1. rewrite create_carousel_container_run.
    cbn [app]. rewrite strs_map_JStr, api_call_run. cbn [calls push]. rewrite Hcalls.
    rewrite (replies_answer _ _ _ _ H1).
    match goal with
    | |- context [publish_stage self (JObj d1) E ?s] =>
        pose proof (publish_stage_trace self (JObj d1) E s) as HB;
        destruct (publish_stage self (JObj d1) E s) as [c st']
    end.
    cbn [check_id calls push app] in HB. rewrite Hd1 in HB.
    destruct HB as [Hlog ->]. exists st'. split.
    - rewrite (replies_answer _ _ _ _ H2), outcome_of_publish.
      cbn [verdict check_id]. now rewrite Hd2.
    - rewrite Hlog, <- app_assoc. reflexivity. }
  destruct Hrun as (st' & Hrun & Hcalls).
  unfold issued. rewrite ended_of_try, post_image_calls, Hrun. auto.
Qed.

Lemma carousel_published_witness :
  ended client (Lst photos) (Some "three") numbering
    = Next (Success (JStr "5") uploaded) /\
  issued client (Lst photos) (Some "three") numbering =
    (item_calls client photos
     ++ [carousel_container_request client "1,2,3" "three";
         publish_request client (JStr "4")])%list.
Proof.
  apply (carousel_published client photos (Some "three") numbering
           ["1"; "2"; "3"] [("id", JStr "4")] (JStr "4")
           [("id", JStr "5")] (JStr "5")).
  - cbn. lia.
  - reflexivity.
  - intros k u Hk.
    do 3 (destruct k as [| k];
          [injection Hk as <-;
           eexists; split; [eexists; repeat split |]; reflexivity |]).
    destruct k; discriminate.
  - eexists. repeat split; reflexivity.
  - reflexivity.
  - eexists. repeat split; reflexivity.
  - reflexivity.
Defined.

(** For a list of more than one URL whose item calls are all answered with
    an object that has an [id], when one of these ids is not a string:
    [post_image] makes the item calls and no other call, and the
    [TypeError] of [",".join] reaches the caller. *)
Theorem carousel_with_non_string_id_raises self urls caption E vs :
  1 < length urls ->
  length vs = length urls ->
  (forall k u, nth_error urls k = Some u ->
     exists d,
       replies E (item_calls self (firstn k urls))
         (carousel_item_request self u) (JObj d) /\
       dict_get "id" d = Some (nth k vs JNull)) ->
  strs vs = None ->
  ended self (Lst urls) caption E = Raise TypeError /\
  issued self (Lst urls) caption E = item_calls self urls.
Proof.
  intros Hlen Hvs Hall Hstrs.
  assert (Hrun : exists st',
             post_image_try self (Lst urls) caption E fresh = (Raise TypeError, st') /\
             calls st' = item_calls self urls).
  { rewrite post_image_try_stages. unfold bind at 1.
    unfold container_stage. cbn [paths_of].
    rewrite (proj2 (Nat.ltb_lt _ _) Hlen).
    unfold bind at 1, print at 1. unfold bind at 1.
    match goal with
    | |- context [carousel_items _ _ _ _ _ E ?s0] =>
        destruct (carousel_items_collects self (length urls) urls 1 [] E s0 vs Hvs)
          as (st1 & Hloop & Hcalls); [exact Hall |]
    end.
    rewrite Hloop. cbn [calls fresh app] in Hcalls.
    unfold bind at 1, print at 1. rewrite create_carousel_container_run.
    cbn [app]. rewrite Hstrs. eexists. split; [reflexivity | exact Hcalls]. }
  destruct Hrun as (st' & Hrun & Hcalls).
  unfold issued. rewrite ended_of_try, post_image_calls, Hrun. auto.
Qed.

Lemma carousel_with_non_string_id_raises_witness :
  ended client (Lst photos) None numeric_ids = Raise TypeError /\
  issued client (Lst photos) None numeric_ids = item_calls client photos.
Proof.
  apply (carousel_with_non_string_id_raises client photos None numeric_ids
           [JNum "1"; JNum "2"; JNum "3"]).
  - cbn. lia.
  - reflexivity.
  - intros k u Hk.
    do 3 (destruct k as [| k];
          [injection Hk as <-;
           eexists; split; [eexists; repeat split |]; reflexivity |]).
    destruct k; discriminate.
  - reflexivity.
Defined.

(** A call answered, with a passing status, by a JSON body that is [null],
    a boolean or a number is the last call, and the [TypeError] of the
    membership test ["id" not in ...] reaches the caller. *)
Theorem scalar_body_raises_type_error self image_paths caption E L rq rest j :
  issued self image_paths caption E = (L ++ rq :: rest)%list ->
  replies E L rq j ->
  j = JNull \/ (exists b, j = JBool b) \/ (exists n, j = JNum n) ->
  ended self image_paths caption E = Raise TypeError /\
  rest = [].
Proof.
  intros Hlog Hr Hj.
  pose proof (replies_answer _ _ _ _ Hr) as Ha.
  destruct (stops_at_bad_answer _ _ _ _ _ _ _ Hlog) as [Hrest Htry].
  { rewrite Ha. intros [v Hv]. destruct Hj as [-> | [[b ->] | [n ->]]]; discriminate. }
  split; [| exact Hrest].
  rewrite ended_of_try, Htry, Ha. unfold outcome_of.
  destruct Hj as [-> | [[b ->] | [n ->]]]; reflexivity.
Qed.

Lemma scalar_body_raises_type_error_witness :
  ended client (Str photo) None (always (ok_body JNull)) = Raise TypeError /\
  @nil request = [].
Proof.
  apply (scalar_body_raises_type_error client (Str photo) None
           (always (ok_body JNull)) []
           (single_media_request client photo (formatted_date tuesday)) [] JNull).
  - reflexivity.
  - eexists. repeat split; reflexivity.
  - now left.
Defined.

(** ** [post_image] does not look at the past *)

Lemma framed_pure {A} (c : ctl A) : framed (fun _ st => (c, st)).
Proof. intros E base out st st0 H. cbn. auto. Qed.

Lemma framed_bind {A B} (m : M A) (k : A -> M B) :
  framed m -> (forall a, framed (k a)) -> framed (bind m k).
Proof.
  intros Hm Hk E base out st st0 H. unfold bind.
  destruct (Hm E base out st st0 H) as [Hc Hst].
  destruct (m E st) as [c st1], (m (shifted base E) st0) as [c0 st1'].
  cbn [fst snd] in Hc, Hst. subst c0.
  destruct c as [a | v | e]; cbn [fst snd]; auto.
  now apply Hk.
Qed.

Lemma framed_try_except {A} (m : M A) catches (h : exn -> M A) :
  framed m -> (forall e, framed (h e)) -> framed (try_except m catches h).
Proof.
  intros Hm Hh E base out st st0 H. unfold try_except.
  destruct (Hm E base out st st0 H) as [Hc Hst].
  destruct (m E st) as [c st1], (m (shifted base E) st0) as [c0 st1'].
  cbn [fst snd] in Hc, Hst. subst c0.
  destruct c as [a | v | e]; cbn [fst snd]; auto.
  destruct (catches e); cbn [fst snd]; auto. now apply Hh.
Qed.

Lemma framed_def (m : M post_result) : framed m -> framed (def m).
Proof.
  intros Hm E base out st st0 H. unfold def.
  destruct (Hm E base out st st0 H) as [Hc Hst].
  destruct (m E st) as [c st1], (m (shifted base E) st0) as [c0 st1'].
  cbn [fst snd] in Hc, Hst. subst c0.
  destruct c as [a | v | e]; cbn [fst snd]; auto.
Qed.

Lemma framed_print line : framed (print line).
Proof.
  intros E base out st st0 [Hc Ho]. unfold print, extends. cbn.
  rewrite Hc, Ho, <- app_assoc. auto.
Qed.

Lemma framed_requests_post u p : framed (requests_post u p).
Proof.
  intros E base out st st0 [Hc Ho]. unfold requests_post, extends. cbn.
  rewrite Hc. destruct (server E (base ++ calls st0) _); cbn;
    rewrite <- app_assoc; auto.
Qed.

Lemma framed_raise_for_status r : framed (raise_for_status r).
Proof. unfold raise_for_status. destruct (_ && _)%bool; apply framed_pure. Qed.

Lemma framed_response_json r : framed (response_json r).
Proof. unfold response_json. destruct (content r); apply framed_pure. Qed.

Lemma framed_py_in k v : framed (py_in k v).
Proof. destruct v; apply framed_pure. Qed.

Lemma framed_py_getitem v k : framed (py_getitem v k).
Proof.
  destruct v; try apply framed_pure. cbn. destruct (dict_get k members); apply framed_pure.
Qed.

Lemma framed_py_get v k dflt : framed (py_get v k dflt).
Proof. destruct v; apply framed_pure. Qed.

Lemma framed_py_first {A} (xs : list A) : framed (py_first xs).
Proof. destruct xs; apply framed_pure. Qed.

Lemma framed_py_join sep l : framed (py_join sep l).
Proof. unfold py_join. destruct (strs l); apply framed_pure. Qed.

Lemma framed_format_value v : framed (format_value v).
Proof. intros E base out st st0 H. cbn. auto. Qed.

Lemma framed_when c body : framed body -> framed (when_ c body).
Proof. intros H. destruct c; [exact H | apply framed_pure]. Qed.

Lemma framed_datetime_now : framed datetime_now.
Proof. intros E base out st st0 H. cbn. auto. Qed.

Lemma framed_api_call rq : framed (api_call rq).
Proof.
  unfold api_call.
  apply framed_bind; [apply framed_requests_post | intros r].
  apply framed_bind; [apply framed_raise_for_status | intros _].
  apply framed_response_json.
Qed.

Lemma framed_carousel_items self total rest : forall i ids,
  framed (carousel_items self total i rest ids).
Proof.
  induction rest as [| u rest IH]; intros i ids; cbn [carousel_items].
  - apply (framed_pure (Next ids)).
  - apply framed_bind; [apply framed_print | intros _].
    apply framed_bind;
      [apply (framed_api_call (carousel_item_request self u)) | intros response].
    apply framed_bind; [apply framed_py_in | intros has_id].
    apply framed_bind; [apply framed_when, (framed_pure (Return _)) | intros _].
    apply framed_bind; [apply framed_py_getitem | intros id].
    apply IH.
Qed.

Lemma framed_post_image_try self image_paths caption :
  framed (post_image_try self image_paths caption).
Proof.
  unfold post_image_try.
  apply framed_bind.
  { destruct caption; [apply (framed_pure (Next _)) |].
    unfold _get_formatted_date.
    apply framed_bind; [apply framed_datetime_now | intros now].
    apply framed_bind; intros; apply (framed_pure (Next _)). }
  intros c. apply framed_bind.
  { destruct (_ <? _)%nat.
    - apply framed_bind; [apply framed_print | intros _].
      apply framed_bind; [apply framed_carousel_items | intros ids].
      apply framed_bind; [apply framed_print | intros _].
      unfold _create_carousel_container.
      apply framed_bind; [apply framed_py_join | intros ch].
      apply (framed_api_call (carousel_container_request self ch c)).
    - apply framed_bind; [apply framed_print | intros _].
      apply framed_bind; [apply framed_py_first | intros u].
      apply (framed_api_call (single_media_request self u c)). }
  intros container.
  apply framed_bind; [apply framed_py_in | intros b1].
  apply framed_bind; [apply framed_when, (framed_pure (Return _)) | intros _].
  apply framed_bind; [apply framed_print | intros _].
  apply framed_bind; [apply framed_py_getitem | intros cid].
  apply framed_bind; [apply (framed_api_call (publish_request self cid)) | intros pd].
  apply framed_bind; [apply framed_py_in | intros b2].
  apply framed_bind; [apply framed_when, (framed_pure (Return _)) | intros _].
  apply framed_bind; [apply framed_print | intros _].
  apply framed_bind; [apply framed_py_getitem | intros pid].
  apply (framed_pure (Return _)).
Qed.

Lemma framed_post_image_except e : framed (post_image_except e).
Proof.
  unfold post_image_except.
  apply framed_bind; [| intros m; apply (framed_pure (Return _))].
  destruct (exn_response e) as [r |]; [| apply (framed_pure (Next _))].
  apply framed_try_except; [| intros _; apply (framed_pure (Next _))].
  apply framed_bind; [apply framed_response_json | intros j].
  apply framed_bind; [apply framed_py_in | intros b].
  destruct b; [| apply (framed_pure (Next _))].
  apply framed_bind; [apply framed_py_getitem | intros err].
  apply framed_bind; [apply framed_py_get | intros msg].
  apply framed_format_value.
Qed.

Lemma framed_post_image self image_paths caption :
  framed (post_image self image_paths caption).
Proof.
  unfold post_image. apply framed_def, framed_try_except.
  - apply framed_post_image_try.
  - apply framed_post_image_except.
Qed.

(** A call of [post_image] in a process that has made calls and printed
    lines before ends as a call in a fresh process does against the remote
    end as those calls left it; it keeps the earlier calls and lines and
    appends its own. *)
Theorem post_image_after_earlier_calls self image_paths caption E st :
  fst (post_image self image_paths caption E st)
    = ended self image_paths caption (shifted (calls st) E) /\
  calls (snd (post_image self image_paths caption E st))
    = (calls st ++ issued self image_paths caption (shifted (calls st) E))%list /\
  exists lines,
    stdout (snd (post_image self image_paths caption E st))
      = (stdout st ++ lines)%list.
Proof.
  destruct (framed_post_image self image_paths caption E (calls st) (stdout st)
              st fresh) as [Hc [Hcalls Hout]].
  { split; cbn; now rewrite app_nil_r. }
  unfold ended, issued. repeat split; auto. eauto.
Qed.

(** ** The default caption determines the date *)

Lemma decimal_value_dec n : decimal_value (dec n) = Some n.
Proof.
  unfold decimal_value, dec.
  destruct (Nat.to_uint n) eqn:Hn;
    [cbn; rewrite <- (Unsigned.of_to n), Hn; reflexivity | ..];
    rewrite NilZero.usu by discriminate; cbn [option_map];
    now rewrite <- Hn, Unsigned.of_to.
Qed.

Lemma decimal_value_dec02 n : decimal_value (dec02 n) = Some n.
Proof.
  unfold dec02. destruct (Nat.ltb_spec n 10) as [Hn | Hn];
    [| apply decimal_value_dec].
  do 10 (destruct n as [| n]; [reflexivity |]). lia.
Qed.

Lemma digits_only_uint d : digits_only (NilEmpty.string_of_uint d) = true.
Proof. induction d; cbn; auto. Qed.

Lemma digits_only_dec n : digits_only (dec n) = true.
Proof.
  unfold dec, NilZero.string_of_uint.
  destruct (Nat.to_uint n) eqn:Hn; try reflexivity;
    rewrite <- Hn; apply digits_only_uint.
Qed.

Lemma digits_only_dec02 n : digits_only (dec02 n) = true.
Proof.
  unfold dec02. destruct (n <? 10)%nat; [| apply digits_only_dec].
  cbn. apply digits_only_dec.
Qed.

(** Two texts that begin with digits up to a first character that is not a
    digit agree on the digits and on what follows. *)
Lemma split_at_non_digit a : forall b c s c' t,
  digits_only a = true -> digits_only b = true ->
  is_digit c = false -> is_digit c' = false ->
  a ++ String c s = b ++ String c' t ->
  a = b /\ s = t.
Proof.
  induction a as [| x a IH]; intros [| y b] c s c' t Ha Hb Hc Hc' Heq;
    cbn in *.
  - injection Heq as _ ->. auto.
  - injection Heq as -> _. apply andb_prop in Hb. destruct Hb. congruence.
  - injection Heq as -> _. apply andb_prop in Ha. destruct Ha. congruence.
  - injection Heq as -> Heq.
    apply andb_prop in Ha. apply andb_prop in Hb.
    destruct (IH b c s c' t) as [-> ->]; tauto.
Qed.

Lemma dec_inj a b : dec a = dec b -> a = b.
Proof.
  intros H. pose proof (decimal_value_dec a) as Ha.
  rewrite H, decimal_value_dec in Ha. congruence.
Qed.

Lemma dec02_inj a b : dec02 a = dec02 b -> a = b.
Proof.
  intros H. pose proof (decimal_value_dec02 a) as Ha.
  rewrite H, decimal_value_dec02 in Ha. congruence.
Qed.

(** The text [_get_formatted_date] returns tells the date: two clocks that
    give the same text agree on year, month and day. *)
Theorem formatted_date_determines_date self E E' st st' c :
  fst (_get_formatted_date self E st) = Next c ->
  fst (_get_formatted_date self E' st') = Next c ->
  year (clock E) = year (clock E') /\
  month (clock E) = month (clock E') /\
  day (clock E) = day (clock E').
Proof.
  rewrite !get_formatted_date_run. cbn [fst]. intros H1 H2.
  injection H1 as <-. injection H2 as H. unfold formatted_date in H.
  cbn [append] in H.
  apply split_at_non_digit in H;
    [| apply digits_only_dec | apply digits_only_dec | reflexivity | reflexivity].
  destruct H as [Hy H]. injection H as H.
  apply split_at_non_digit in H;
    [| apply digits_only_dec02 | apply digits_only_dec02 | reflexivity | reflexivity].
  destruct H as [Hm H]. injection H as H.
  apply split_at_non_digit in H;
    [| apply digits_only_dec02 | apply digits_only_dec02 | reflexivity | reflexivity].
  destruct H as [Hd _].
  apply dec_inj in Hy. apply dec02_inj in Hm. apply dec02_inj in Hd. auto.
Qed.

Lemma formatted_date_determines_date_witness :
  year (clock numbering) = year (clock (always bad_gateway)) /\
  month (clock numbering) = month (clock (always bad_gateway)) /\
  day (clock numbering) = day (clock (always bad_gateway)).
Proof.
  apply (formatted_date_determines_date client numbering (always bad_gateway)
           fresh fresh "2024년 03월 05일 화요일 MQ 글로벌 증권가 뉴스");
    reflexivity.
Defined.

(** ** The self-test, [main] (lines 184-210) *)

Lemma shifted_nil E : shifted [] E = E.
Proof. destruct E. reflexivity. Qed.

Lemma report_run result E st :
  exists st', report result E st = (Next tt, st') /\ calls st' = calls st.
Proof. destruct result; eexists; split; reflexivity. Qed.

Lemma main_with_client getenv api :
  __init__ getenv = inr api ->
  main getenv =
    (print (newline ++ "=== 단일 이미지 테스트 ===") ;;
     result <- post_image api (Str single_image) None ;;
     report result ;;
     print (newline ++ "=== 다중 이미지 테스트 ===") ;;
     result <- post_image api (Lst multiple_images) None ;;
     report result).
Proof. intros H. unfold main. rewrite H. reflexivity. Qed.

Lemma follows_protocol_shifted base E :
  follows_protocol E -> follows_protocol (shifted base E).
Proof. intros H log rq. apply (H (base ++ log)%list rq). Qed.

Lemma ended_under_protocol self image_paths caption E :
  follows_protocol E ->
  paths_of image_paths <> [] ->
  exists v, ended self image_paths caption E = Next v.
Proof.
  intros HE Hne. rewrite ended_of_try, post_image_try_stages. unfold bind.
  pose proof (container_stage_tame self (paths_of image_paths)
                (caption_sent E caption) E fresh HE Hne) as HA.
  destruct (container_stage _ _ _ E fresh) as [[j | f | e] st1]; cbn in HA |- *.
  - pose proof (publish_stage_tame self j E st1 HE HA) as HB.
    destruct (publish_stage self j E st1) as [[v | v | e] st2]; cbn in HB |- *;
      try now eexists.
    destruct (post_image_except_returns e E HB) as [v ->].
    destruct HB as [-> _]. now eexists.
  - now eexists.
  - destruct (post_image_except_returns e E HA) as [v ->].
    destruct HA as [-> _]. now eexists.
Qed.

(** The run of [main] once the client is built: the first test, then, if
    it returned a record, the second test against the remote end as the
    first left it. *)
Lemma main_sequence getenv api E :
  __init__ getenv = inr api ->
  match ended api (Str single_image) None E with
  | Next _ =>
      calls (snd (main getenv E fresh)) =
        (first_test_calls api E
         ++ issued api (Lst multiple_images) None (after_first_test api E))%list /\
      fst (main getenv E fresh) =
        match ended api (Lst multiple_images) None (after_first_test api E) with
        | Next _ => Next tt
        | Return r => Return r
        | Raise e => Raise e
        end
  | Return r =>
      calls (snd (main getenv E fresh)) = first_test_calls api E /\
      fst (main getenv E fresh) = Return r
  | Raise e =>
      calls (snd (main getenv E fresh)) = first_test_calls api E /\
      fst (main getenv E fresh) = Raise e
  end.
Proof.
  intros Hinit. rewrite (main_with_client _ _ Hinit).
  match goal with
  | |- context [fst (?prog E fresh)] =>
      destruct (prog E fresh) as [c st] eqn:Hrun
  end.
  cbn [fst snd]. unfold bind at 1, print at 1 in Hrun. unfold bind at 1 in Hrun.
  match type of Hrun with
  | context [post_image api (Str single_image) None E ?s1] =>
      destruct (framed_post_image api (Str single_image) None E [] (stdout s1)
                  s1 fresh) as [Hc [Hcalls _]];
        [split; cbn; now rewrite ?app_nil_r |];
      destruct (post_image api (Str single_image) None E s1) as [c1 st1]
  end.
  rewrite shifted_nil in Hc, Hcalls. cbn [fst snd app] in Hc, Hcalls.
  change (fst (post_image api (Str single_image) None E fresh))
    with (ended api (Str single_image) None E) in Hc.
  change (calls (snd (post_image api (Str single_image) None E fresh)))
    with (first_test_calls api E) in Hcalls.
  rewrite <- Hc.
  destruct c1 as [r1 | r1 | e1];
    [| injection Hrun as <- <-; auto | injection Hrun as <- <-; auto].
  unfold bind at 1 in Hrun.
  destruct (report_run r1 E st1) as (st2 & Hrep & Hst2). rewrite Hrep in Hrun.
  unfold bind at 1, print at 1 in Hrun. unfold bind at 1 in Hrun.
  match type of Hrun with
  | context [post_image api (Lst multiple_images) None E ?s3] =>
      destruct (framed_post_image api (Lst multiple_images) None E (calls s3)
                  (stdout s3) s3 fresh) as [Hc2 [Hcalls2 _]];
        [split; cbn; now rewrite ?app_nil_r |];
      destruct (post_image api (Lst multiple_images) None E s3) as [c2 st3]
  end.
  cbn [fst snd calls] in Hc2, Hcalls2. rewrite Hst2, Hcalls in Hc2, Hcalls2.
  change (shifted (first_test_calls api E) E)
    with (after_first_test api E) in Hc2, Hcalls2.
  change (fst (post_image api (Lst multiple_images) None (after_first_test api E) fresh))
    with (ended api (Lst multiple_images) None (after_first_test api E)) in Hc2.
  change (calls (snd (post_image api (Lst multiple_images) None
                        (after_first_test api E) fresh)))
    with (issued api (Lst multiple_images) None (after_first_test api E)) in Hcalls2.
  rewrite <- Hc2.
  destruct c2 as [r2 | r2 | e2];
    [| injection Hrun as <- <-; auto | injection Hrun as <- <-; auto].
  destruct (report_run r2 E st3) as (st4 & Hrep2 & Hst4). rewrite Hrep2 in Hrun.
  injection Hrun as <- <-. rewrite Hst4. auto.
Qed.

(** Without credentials [main] stops in the constructor: the [ValueError]
    reaches the caller, nothing is printed and no call is made. *)
Theorem main_without_credentials getenv E st :
  getenv "INSTAGRAM_ACCESS_TOKEN" = None \/
  getenv "INSTAGRAM_ACCESS_TOKEN" = Some "" \/
  getenv "INSTAGRAM_ACCOUNT_ID" = None \/
  getenv "INSTAGRAM_ACCOUNT_ID" = Some "" ->
  main getenv E st = (Raise (ValueError credentials_missing), st).
Proof.
  intros H. unfold main, __init__.
  destruct (getenv "INSTAGRAM_ACCESS_TOKEN") as [[| c t] |];
    destruct (getenv "INSTAGRAM_ACCOUNT_ID") as [[| c' a] |]; cbn;
    try reflexivity.
  destruct H as [H | [H | [H | H]]]; discriminate.
Qed.

Lemma main_without_credentials_witness :
  main environ_without_account numbering fresh
    = (Raise (ValueError credentials_missing), fresh).
Proof.
  apply (main_without_credentials environ_without_account numbering fresh).
  right. right. left. reflexivity.
Defined.



(** When the first test of [main] raises, [main] ends with that exception
    and the second test is not run. *)
Theorem main_stops_when_first_test_raises getenv api E e :
  __init__ getenv = inr api ->
  ended api (Str single_image) None E = Raise e ->
  fst (main getenv E fresh) = Raise e /\
  calls (snd (main getenv E fresh)) = issued api (Str single_image) None E.
Proof.
  intros Hinit Hfirst. pose proof (main_sequence getenv api E Hinit) as H.
  rewrite Hfirst in H. destruct H. auto.
Qed.

Lemma main_stops_when_first_test_raises_witness :
  fst (main environ_ok (always bad_gateway) fresh) = Raise AttributeError /\
  calls (snd (main environ_ok (always bad_gateway) fresh))
    = issued client (Str single_image) None (always bad_gateway).
Proof.
  apply (main_stops_when_first_test_raises environ_ok client (always bad_gateway)
           AttributeError); reflexivity.
Defined.



(** ** The private methods (lines 21-105) *)

Lemma api_call_one_call rq E st : one_call (api_call rq) rq E st.
Proof.
  unfold one_call. rewrite api_call_run. cbn [fst snd calls stdout push].
  repeat split; auto.
  - apply answer_next_replies.
  - apply replies_answer.
  - apply answer_not_return.
  - intros text resp Hs. unfold answer. now rewrite Hs.
  - intros r Hs Hst. unfold answer. now rewrite Hs, Hst.
Qed.

(** Each of [_create_single_media], [_create_carousel_item] and
    [_publish_media] makes exactly one call, whatever the remote end does;
    it returns the decoded body exactly when the status passes and the body
    decodes; an exception of [requests.post] passes through it; and on a
    4xx or 5xx status it raises the [HTTPError] that carries the
    response. *)
Theorem private_methods_make_one_call self image_url caption creation_id E st :
  one_call (_create_single_media self image_url caption)
    (single_media_request self image_url caption) E st /\
  one_call (_create_carousel_item self image_url)
    (carousel_item_request self image_url) E st /\
  one_call (_publish_media self creation_id)
    (publish_request self creation_id) E st.
Proof.
  rewrite create_single_media_call, create_carousel_item_call, publish_media_call.
  repeat split; apply api_call_one_call.
Qed.

Lemma private_methods_make_one_call_witness :
  calls (snd (_publish_media client (JStr "1") numbering fresh))
    = [publish_request client (JStr "1")] /\
  fst (_create_carousel_item client photo numbering fresh)
    = Next (JObj [("id", JStr "1")]) /\
  fst (_create_single_media client photo "" (always (Respond invalid_url)) fresh)
    = Raise (RequestException (http_error_text invalid_url) (Some invalid_url)) /\
  fst (_create_single_media client photo "" unreachable fresh)
    = Raise (RequestException
               "HTTPSConnectionPool(host='graph.facebook.com', port=443): Max retries exceeded"
               None).
Proof.
  split; [| split; [| split]].
  - apply (proj1 (proj2 (proj2 (private_methods_make_one_call client photo ""
                                  (JStr "1") numbering fresh)))).
  - apply (proj1 (proj2 (proj2 (proj1 (proj2
             (private_methods_make_one_call client photo "" (JStr "1")
                numbering fresh)))))).
    eexists. repeat split; reflexivity.
  - apply (proj2 (proj2 (proj2 (proj2 (proj2 (proj1
             (private_methods_make_one_call client photo "" (JStr "1")
                (always (Respond invalid_url)) fresh)))))));
      reflexivity.
  - apply (proj1 (proj2 (proj2 (proj2 (proj2 (proj1
             (private_methods_make_one_call client photo "" (JStr "1")
                unreachable fresh)))))));
      reflexivity.
Defined.

(** [_create_carousel_container] joins the ids before it calls: when they
    are all strings it makes the one carousel-container call with the ids
    joined by commas; when one is not, it raises [TypeError] and makes no
    call. *)
Theorem carousel_container_joins_ids self children_ids caption E st :
  (forall ss, strs children_ids = Some ss ->
     one_call (_create_carousel_container self children_ids caption)
       (carousel_container_request self (String.concat "," ss) caption) E st) /\
  (strs children_ids = None ->
     _create_carousel_container self children_ids caption E st
       = (Raise TypeError, st)).
Proof.
  split.
  - intros ss Hss. unfold one_call.
    rewrite create_carousel_container_run, Hss. apply api_call_one_call.
  - intros Hss. now rewrite create_carousel_container_run, Hss.
Qed.

Lemma carousel_container_joins_ids_witness :
  one_call (_create_carousel_container client [JStr "1"; JStr "2"] "two")
    (carousel_container_request client "1,2" "two") numbering fresh /\
  _create_carousel_container client [JStr "1"; JNum "2"] "two" numbering fresh
    = (Raise TypeError, fresh).
Proof.
  split.
  - apply (proj1 (carousel_container_joins_ids client [JStr "1"; JStr "2"] "two"
                    numbering fresh) ["1"; "2"] eq_refl).
  - apply (proj2 (carousel_container_joins_ids client [JStr "1"; JNum "2"] "two"
                    numbering fresh) eq_refl).
Defined.

(** The constructor and [post_image] together: every call of a client built
    from the environment carries the access token of the environment and
    goes to the [media] or the [media_publish] endpoint of the account of
    the environment under [https://graph.facebook.com/v18.0]. *)
Theorem built_client_calls_its_account getenv api token account
    image_paths caption E :
  __init__ getenv = inr api ->
  getenv "INSTAGRAM_ACCESS_TOKEN" = Some token ->
  getenv "INSTAGRAM_ACCOUNT_ID" = Some account ->
  Forall (fun rq =>
            dict_get "access_token" (params rq) = Some (JStr token) /\
            (url rq = "https://graph.facebook.com/v18.0/" ++ account ++ "/media" \/
             url rq = "https://graph.facebook.com/v18.0/" ++ account ++ "/media_publish"))
    (issued api image_paths caption E).
Proof.
  intros Hinit Ht Ha.
  assert (Hapi : access_token api = token /\ account_id api = account /\
                 base_url api = "https://graph.facebook.com/v18.0").
  { unfold __init__ in Hinit. rewrite Ht, Ha in Hinit.
    destruct (falsy (Some token) || falsy (Some account))%bool; [discriminate |].
    injection Hinit as <-. auto. }
  destruct Hapi as (Htok & Hacc & Hbase).
  eapply Forall_impl; [| apply issued_expected].
  intros rq [(_ & u & _ & ->) | [(_ & ch & ->) | [(u & _ & ->) | (cid & ->)]]];
    cbn [params url dict_get carousel_item_request carousel_container_request
         single_media_request publish_request media_url];
    unfold media_url; rewrite Htok, Hacc, Hbase; cbn; auto.
Qed.

Lemma built_client_calls_its_account_witness :
  Forall (fun rq =>
            dict_get "access_token" (params rq) = Some (JStr "EAAG-token") /\
            (url rq = "https://graph.facebook.com/v18.0/" ++ "17841400000000000" ++ "/media" \/
             url rq = "https://graph.facebook.com/v18.0/" ++ "17841400000000000" ++ "/media_publish"))
    (issued client (Lst photos) None numbering).
Proof.
  apply (built_client_calls_its_account environ_ok client "EAAG-token"
           "17841400000000000" (Lst photos) None numbering); reflexivity.
Defined.
